(** * The circuit simulator of the Circuit Visualizer page

    A shallow embedding of [simulateCircuit] from
    [src/pages/CircuitVisualizer.tsx]: the per-qubit amplitude tracker,
    the product-of-marginals probability table and the inverse-CDF
    sampler, followed by the properties the specification states about
    them.

    Number model.  A JavaScript [number] that holds an amplitude or a
    probability is a real number ([R]); counters, indices and counts are
    natural numbers, and arrays have no length limit.  [>>] and [&] are
    written on [Z]; JavaScript evaluates them on 32-bit integers, which
    gives the same bit for every register of at most 32 qubits (Lemma
    [bitAt_int32]); a run with more qubits cannot complete in JavaScript
    in any case, its table of [2^numQubits] probabilities being longer
    than the longest array.  [Math.random()] is a stream of reals handed
    to the function. *)

From Stdlib Require Import Reals Lra Lia ZArith String Ascii Arith Bool List
  Permutation Sorted.
Import ListNotations.

(** ** Exceptions *)

(** The only way the code below could raise is by reading a property of
    [undefined] (an array element that does not exist). *)
Inductive JsError : Type :=
| TypeError.

Definition Js (A : Type) : Type := (JsError + A)%type.

Definition ret {A : Type} (a : A) : Js A := inr a.

Definition bind {A B : Type} (m : Js A) (k : A -> Js B) : Js B :=
  match m with
  | inl e => inl e
  | inr a => k a
  end.

Declare Scope js_scope.
Delimit Scope js_scope with js.
Notation "x <- m ;; k" := (bind m (fun x => k))
  (at level 61, m at next level, right associativity) : js_scope.
Local Open Scope js_scope.

(** ** Arrays *)

(** [arr[i].field]: reading a field of an absent element throws. *)
Definition elem {A : Type} (arr : list A) (i : nat) : Js A :=
  match nth_error arr i with
  | Some a => ret a
  | None => inl TypeError
  end.

(** [arr[i] = v] and [arr[i].field = v] for an index that is present.
    Every write of the source follows a successful read of the same
    element, so the out-of-range case (where JavaScript would extend the
    array) is never exercised; here it leaves the array as it is. *)
Fixpoint set_elem {A : Type} (arr : list A) (i : nat) (v : A) : list A :=
  match arr, i with
  | [], _ => []
  | _ :: rest, O => v :: rest
  | a :: rest, S i' => a :: set_elem rest i' v
  end.

(** ** Data model *)

Record Complex : Type := mkComplex { real : R; imag : R }.

Record QubitState : Type := mkQubit { alpha : Complex; beta : Complex }.

Module GateType.
Inductive t : Type := H | X | Y | Z | CNOT | T | S | M.
End GateType.

Record Gate : Type := mkGate {
  id : string;
  type : GateType.t;
  qubit : nat;
  controlQubit : option nat
}.

Definition set_alpha (s : QubitState) (a : Complex) : QubitState :=
  {| alpha := a; beta := beta s |}.

Definition set_beta (s : QubitState) (b : Complex) : QubitState :=
  {| alpha := alpha s; beta := b |}.

(** [{ alpha: { real: 1, imag: 0 }, beta: { real: 0, imag: 0 } }] *)
Definition ket0 : QubitState :=
  {| alpha := {| real := 1; imag := 0 |};
     beta := {| real := 0; imag := 0 |} |}.

(** [Array(numQubits).fill(null).map(() => ({ ... }))]: one fresh object
    per index, so no two elements share storage. *)
Definition initStates (numQubits : nat) : list QubitState :=
  map (fun _ => ket0) (repeat tt numQubits).

(** ** Gate cases of the [switch] *)

Local Open Scope R_scope.

Definition SQRT1_2 : R := sqrt (1 / 2).

Definition caseH (s : QubitState) : QubitState :=
  let alphaH := alpha s in
  let betaH := beta s in
  let sqrt2 := SQRT1_2 in
  {| alpha := {| real := sqrt2 * (real alphaH + real betaH);
                 imag := sqrt2 * (imag alphaH + imag betaH) |};
     beta := {| real := sqrt2 * (real alphaH - real betaH);
                imag := sqrt2 * (imag alphaH - imag betaH) |} |}.

Definition caseX (s : QubitState) : QubitState :=
  let temp := alpha s in
  let s1 := set_alpha s (beta s) in
  set_beta s1 temp.

Definition caseZ (s : QubitState) : QubitState :=
  set_beta s {| real := - real (beta s); imag := - imag (beta s) |}.

Definition caseY (s : QubitState) : QubitState :=
  let alphaY := alpha s in
  let s1 := set_alpha s {| real := imag (beta s); imag := - real (beta s) |} in
  set_beta s1 {| real := - imag alphaY; imag := real alphaY |}.

Definition caseS (s : QubitState) : QubitState :=
  set_beta s {| real := - imag (beta s); imag := real (beta s) |}.

Definition caseT (s : QubitState) : QubitState :=
  let cos := cos (PI / 4) in
  let sin := sin (PI / 4) in
  let betaT := beta s in
  set_beta s {| real := cos * real betaT - sin * imag betaT;
                imag := sin * real betaT + cos * imag betaT |}.

(** The body a [case] label selects; ['CNOT'] and ['M'] have no label. *)
Definition switchCase (ty : GateType.t) : option (QubitState -> QubitState) :=
  match ty with
  | GateType.H => Some caseH
  | GateType.X => Some caseX
  | GateType.Z => Some caseZ
  | GateType.Y => Some caseY
  | GateType.S => Some caseS
  | GateType.T => Some caseT
  | GateType.CNOT | GateType.M => None
  end.

(** The callback of [gates.forEach]. *)
Definition applyGate (numQubits : nat) (states : list QubitState) (gate : Gate)
  : Js (list QubitState) :=
  let q := qubit gate in
  if (numQubits <=? q)%nat then ret states
  else
    match switchCase (type gate) with
    | None => ret states
    | Some body =>
        s <- elem states q ;;
        ret (set_elem states q (body s))
    end.

(** [gates.forEach(gate => ...)] *)
Fixpoint applyGates (numQubits : nat) (states : list QubitState)
  (gates : list Gate) : Js (list QubitState) :=
  match gates with
  | [] => ret states
  | gate :: rest =>
      states' <- applyGate numQubits states gate ;;
      applyGates numQubits states' rest
  end.

(** ** Loops *)

(** [for (let k = from; k < from + count; k++) body], threading the
    variables the body updates. *)
Fixpoint forLoop {St : Type} (count from : nat) (body : nat -> St -> Js St)
  (st : St) : Js St :=
  match count with
  | O => ret st
  | S count' =>
      st' <- body from st ;;
      forLoop count' (S from) body st'
  end.

(** ** Measurement probabilities *)

(** [amplitude.real * amplitude.real + amplitude.imag * amplitude.imag] *)
Definition ampProb (amplitude : Complex) : R :=
  real amplitude * real amplitude + imag amplitude * imag amplitude.




(** [(i >> (numQubits - 1 - q)) & 1], on unbounded integers; it is the
    value of the 32-bit operators above for [numQubits <= 32]
    (Lemma [bitAt_int32]). *)
Definition bitAt (numQubits i q : nat) : Z :=
  Z.land (Z.shiftr (Z.of_nat i) (Z.of_nat numQubits - 1 - Z.of_nat q)) 1.

(** One pass of the loop over [q]: [prob *= ampProb]. *)
Definition qubitStep (numQubits : nat) (states : list QubitState) (i : nat)
  (q : nat) (prob : R) : Js R :=
  let bit := bitAt numQubits i q in
  state <- elem states q ;;
  let amplitude := if (bit =? 0)%Z then alpha state else beta state in
  ret (prob * ampProb amplitude).

(** The body of the loop over [i], up to [probabilities.push(prob)]. *)
Definition basisProb (numQubits : nat) (states : list QubitState) (i : nat)
  : Js R :=
  forLoop numQubits 0 (qubitStep numQubits states i) 1.

(** [Math.pow(2, numQubits)] *)
Definition numStatesOf (numQubits : nat) : nat := (2 ^ numQubits)%nat.

Definition computeProbabilities (numQubits : nat) (states : list QubitState)
  : Js (list R) :=
  forLoop (numStatesOf numQubits) 0
    (fun i probabilities =>
       prob <- basisProb numQubits states i ;;
       ret (probabilities ++ [prob]))
    [].

(** [probabilities.reduce((a, b) => a + b, 0)] *)
Definition totalOf (probabilities : list R) : R :=
  fold_left Rplus probabilities 0.

(** [probabilities.map(p => p / total)].  The quotient is the real one;
    the table of a run always has total 1 (Lemma [table_total_one]), so
    the [0 / 0] that JavaScript turns into [NaN] does not arise. *)
Definition normalize (probabilities : list R) : list R :=
  let total := totalOf probabilities in
  map (fun p => p / total) probabilities.

(** ** Sampling *)

(** [j.toString(2)] *)
Fixpoint binaryDigits (p : positive) : string :=
  match p with
  | xH => "1"
  | xO p' => binaryDigits p' ++ "0"
  | xI p' => binaryDigits p' ++ "1"
  end%string.

Definition toString2 (j : nat) : string :=
  match N.of_nat j with
  | N0 => "0"%string
  | Npos p => binaryDigits p
  end.

(** [s.padStart(targetLength, '0')] *)
Fixpoint zeros (k : nat) : string :=
  match k with
  | O => EmptyString
  | S k' => String "0"%char (zeros k')
  end.

Definition padStart0 (s : string) (targetLength : nat) : string :=
  (zeros (targetLength - String.length s) ++ s)%string.

(** [j.toString(2).padStart(numQubits, '0')] *)
Definition stateLabel (numQubits j : nat) : string :=
  padStart0 (toString2 j) numQubits.

(** The loop over [j]: the index at which it breaks, if it does.
    [normalized] has one entry per basis state, so [j < numStates]
    ranges over exactly its entries. *)
Fixpoint sampleLoop (r : R) (normalized : list R) (j : nat) (cumulative : R)
  : option nat :=
  match normalized with
  | [] => None
  | p :: rest =>
      let cumulative := cumulative + p in
      if Rle_dec r cumulative then Some j
      else sampleLoop r rest (S j) cumulative
  end.

(** [counts]: an object used as a map; its keys in insertion order. *)
Definition Counts : Type := list (string * nat).

(** [counts[state] = (counts[state] || 0) + 1] *)
Fixpoint increment (counts : Counts) (state : string) : Counts :=
  match counts with
  | [] => [(state, 1%nat)]
  | (key, c) :: rest =>
      if String.eqb key state then (key, S c) :: rest
      else (key, c) :: increment rest state
  end.

(** One shot: draw, scan, count. *)
Definition shot (numQubits : nat) (normalized : list R) (r : R)
  (counts : Counts) : Counts :=
  match sampleLoop r normalized 0 0 with
  | Some j => increment counts (stateLabel numQubits j)
  | None => counts
  end.

(** [for (let i = 0; i < shots; i++)], the [i]-th call of
    [Math.random()] returning [random i]. *)
Fixpoint sampleShots (numQubits : nat) (normalized : list R)
  (random : nat -> R) (steps i : nat) (counts : Counts) : Counts :=
  match steps with
  | O => counts
  | S steps' =>
      sampleShots numQubits normalized random steps' (S i)
        (shot numQubits normalized (random i) counts)
  end.

(** ** [Object.entries] and the sort *)

Definition digitValue (c : ascii) : option N :=
  let n := N_of_ascii c in
  if ((48 <=? n) && (n <=? 57))%N then Some (n - 48)%N else None.

Fixpoint parseDecimal (s : string) (acc : N) : option N :=
  match s with
  | EmptyString => Some acc
  | String c rest =>
      match digitValue c with
      | Some d => parseDecimal rest (10 * acc + d)%N
      | None => None
      end
  end.

(** A key is an array index when it is the canonical decimal form of an
    integer below [2^32 - 1]; [Object.entries] lists those keys first,
    in ascending numeric order, and then the other keys in insertion
    order. *)
Definition arrayIndex (key : string) : option N :=
  match key with
  | EmptyString => None
  | String c rest =>
      if (Ascii.eqb c "0" && negb (String.eqb rest ""))%bool then None
      else
        match parseDecimal key 0 with
        | Some n => if (n <? 2 ^ 32 - 1)%N then Some n else None
        | None => None
        end
  end.

Definition isIndexKey (kv : string * nat) : bool :=
  match arrayIndex (fst kv) with
  | Some _ => true
  | None => false
  end.

Definition indexOfKey (kv : string * nat) : N :=
  match arrayIndex (fst kv) with
  | Some n => n
  | None => 0%N
  end.

Fixpoint insertByIndex (kv : string * nat) (sorted : Counts) : Counts :=
  match sorted with
  | [] => [kv]
  | kv' :: rest =>
      if (indexOfKey kv <=? indexOfKey kv')%N then kv :: sorted
      else kv' :: insertByIndex kv rest
  end.

Definition objectEntries (counts : Counts) : Counts :=
  fold_right insertByIndex [] (filter isIndexKey counts)
  ++ filter (fun kv => negb (isIndexKey kv)) counts.

Record Result : Type := mkResult {
  state : string;
  probability : R;
  count : nat
}.

(** [([state, count]) => ({ state, probability: count / shots, count })] *)
Definition toResult (shots : nat) (kv : string * nat) : Result :=
  {| state := fst kv;
     probability := INR (snd kv) / INR shots;
     count := snd kv |}.

(** [.sort((a, b) => b.count - a.count)]: stable, by descending count. *)
Fixpoint insertByCount (a : Result) (sorted : list Result) : list Result :=
  match sorted with
  | [] => [a]
  | b :: rest =>
      if (count b <=? count a)%nat then a :: sorted
      else b :: insertByCount a rest
  end.

Definition sortByCount (results : list Result) : list Result :=
  fold_right insertByCount [] results.

(** ** [simulateCircuit] *)

(** What the run hands to [setQubitStates] and [setMeasurementResults]. *)
Record Simulation : Type := mkSimulation {
  qubitStates : list QubitState;
  measurementResults : list Result
}.

Definition simulateCircuit (numQubits : nat) (gates : list Gate) (shots : nat)
  (random : nat -> R) : Js Simulation :=
  let states0 := initStates numQubits in
  states <- applyGates numQubits states0 gates ;;
  probabilities <- computeProbabilities numQubits states ;;
  let normalized := normalize probabilities in
  let counts := sampleShots numQubits normalized random shots 0 [] in
  let results := sortByCount (map (toResult shots) (objectEntries counts)) in
  ret {| qubitStates := states; measurementResults := results |}.


(** ** The gate list and the circuit diagram *)

(** The gate [addGate] builds.  Its id, [`${Date.now()}-${Math.random()}`]
    in the source, is handed in; [controlQubit] is
    [selectedGate === 'CNOT' && qubit > 0 ? qubit - 1 : undefined]. *)
Definition newGate (selectedGate : GateType.t) (newId : string) (qubit : nat)
  : Gate :=
  {| id := newId;
     type := selectedGate;
     qubit := qubit;
     controlQubit :=
       match selectedGate with
       | GateType.CNOT => if (0 <? qubit)%nat then Some (qubit - 1)%nat
                          else None
       | _ => None
       end |}.

(** [addGate(qubit, step)]: [setGates(prev => [...prev, newGate])].
    The [step] argument is not read. *)
Definition addGate (selectedGate : GateType.t) (newId : string)
  (qubit step : nat) (prev : list Gate) : list Gate :=
  prev ++ [newGate selectedGate newId qubit].

(** [removeGate(gateId)]: [prev.filter(g => g.id !== gateId)] *)
Definition removeGate (gateId : string) (prev : list Gate) : list Gate :=
  filter (fun g => negb (String.eqb (id g) gateId)) prev.

Definition maxSteps : nat := 8%nat.

Definition Grid : Type := list (list (option Gate)).

(** [Array(numQubits).fill(null).map(() => Array(maxSteps).fill(null))]:
    every row is an array of its own. *)
Definition emptyGrid (numQubits : nat) : Grid :=
  map (fun _ => map (fun _ => None) (repeat tt maxSteps))
    (repeat tt numQubits).

(** The callback of [gates.forEach((gate, idx) => ...)] that fills the
    diagram. *)
Definition placeGate (numQubits : nat) (grid : Grid) (gate : Gate)
  (idx : nat) : Js Grid :=
  let step := (idx mod maxSteps)%nat in
  if (qubit gate <? numQubits)%nat then
    row <- elem grid (qubit gate) ;;
    ret (set_elem grid (qubit gate) (set_elem row step (Some gate)))
  else ret grid.

Fixpoint placeGates (numQubits : nat) (grid : Grid) (gates : list Gate)
  (idx : nat) : Js Grid :=
  match gates with
  | [] => ret grid
  | gate :: rest =>
      grid' <- placeGate numQubits grid gate idx ;;
      placeGates numQubits grid' rest (S idx)
  end.

Definition gatesByQubitAndStep (numQubits : nat) (gates : list Gate)
  : Js Grid :=
  placeGates numQubits (emptyGrid numQubits) gates 0.

(** [gatesByQubitAndStep[qubit][step]] as the diagram reads it: a
    missing row throws, a missing or [null] cell draws the empty slot. *)
Definition cellAt (grid : Grid) (qubit step : nat) : Js (option Gate) :=
  row <- elem grid qubit ;;
  ret (match nth_error row step with
       | Some cell => cell
       | None => None
       end).

(** [measurementResults.slice(0, 8)]: the results that get a card under
    the chart. *)
Definition resultCards (results : list Result) : list Result :=
  firstn 8 results.
(** * Properties *)

(** ** Quantities the specification speaks of *)

(** [|alpha|^2 + |beta|^2] *)
Definition normSq (s : QubitState) : R :=
  ampProb (alpha s) + ampProb (beta s).

(** A gate of the given kind placed on qubit 0. *)
Definition gateOn0 (ty : GateType.t) : Gate :=
  {| id := "g"; type := ty; qubit := 0; controlQubit := None |}.

(** Applying a gate to a single qubit state: run the [forEach] callback
    on the one-qubit register that holds the state and read the qubit
    back. *)
Definition applyTo (ty : GateType.t) (s : QubitState) : Js QubitState :=
  states <- applyGate 1 [s] (gateOn0 ty) ;;
  elem states 0.

Definition unitaryKinds : list GateType.t :=
  [GateType.H; GateType.X; GateType.Y; GateType.Z; GateType.S; GateType.T].

Definition involutoryKinds : list GateType.t :=
  [GateType.X; GateType.Y; GateType.Z; GateType.H].


(** A register as [simulateCircuit] holds it: one state per qubit, each
    of norm 1. *)
Definition unitRegister (numQubits : nat) (states : list QubitState) : Prop :=
  length states = numQubits /\ Forall (fun s => normSq s = 1) states.

(** The weight a qubit contributes for a given bit:
    [|alpha|^2] for bit 0, [|beta|^2] otherwise. *)
Definition weight (s : QubitState) (bit : Z) : R :=
  ampProb (if (bit =? 0)%Z then alpha s else beta s).

(** Bit [k] of [i], written with the operators of the source. *)
Definition bitOf (i k : nat) : Z :=
  Z.land (Z.shiftr (Z.of_nat i) (Z.of_nat k)) 1.

(** The product the loop over [q] accumulates, read off the register
    from qubit [numQubits - length states] on: the qubit at the head of
    the list looks at bit [length rest] of [i]. *)
Fixpoint jointWeight (states : list QubitState) (i : nat) : R :=
  match states with
  | [] => 1
  | s :: rest => weight s (bitOf i (length rest)) * jointWeight rest i
  end.

Definition sumR (l : list R) : R := fold_right Rplus 0 l.

Definition prodNorm (states : list QubitState) : R :=
  fold_right (fun s acc => normSq s * acc) 1 states.

(** Sum of the [probability] fields and of the [count] fields. *)
Definition sumProbability (results : list Result) : R :=
  sumR (map probability results).

Definition sumCount (results : list Result) : nat :=
  fold_right (fun r acc => (count r + acc)%nat) 0%nat results.

Definition totalCount (counts : Counts) : nat :=
  fold_right (fun kv acc => (snd kv + acc)%nat) 0%nat counts.

(** Bitstrings: strings over ['0'] and ['1']. *)
Fixpoint isBitstring (b : string) : bool :=
  match b with
  | EmptyString => true
  | String c b' => (Ascii.eqb c "0" || Ascii.eqb c "1") && isBitstring b'
  end.

(** The basis-state index a bitstring denotes, first character most
    significant. *)
Fixpoint binaryValue (b : string) : nat :=
  match b with
  | EmptyString => 0
  | String c b' =>
      ((if Ascii.eqb c "1" then 2 ^ String.length b' else 0)
       + binaryValue b')%nat
  end.

(** The product the specification describes: qubit [q] contributes
    [|alpha_q|^2] when character [q] of the bitstring is ['0'] and
    [|beta_q|^2] when it is ['1']. *)
Fixpoint jointProbability (states : list QubitState) (b : string) : R :=
  match states, b with
  | s :: rest, String c b' =>
      (if Ascii.eqb c "0" then ampProb (alpha s) else ampProb (beta s))
      * jointProbability rest b'
  | _, _ => 1
  end.

(** ** Proof steps on states *)

Ltac open_state s :=
  let ar := fresh "ar" in
  let ai := fresh "ai" in
  let br := fresh "br" in
  let bi := fresh "bi" in
  destruct s as [[ar ai] [br bi]].

Ltac state_eq := unfold set_alpha, set_beta; cbn [alpha beta real imag];
  repeat f_equal.

(** ** Quantities used for the diagram *)

(** The shape the diagram reads: one row per qubit, [maxSteps] cells per
    row. *)
Definition gridShape (numQubits : nat) (grid : Grid) : Prop :=
  length grid = numQubits
  /\ Forall (fun row => length row = maxSteps) grid.

(** The gate a cell ends up with when the gates are placed one after
    the other, the first of them at index [idx]: the latest one that
    targets the cell, or what the cell held before. *)
Fixpoint latestFrom (gates : list Gate) (idx q s : nat) (held : option Gate)
  : option Gate :=
  match gates with
  | [] => held
  | gate :: rest =>
      latestFrom rest (S idx) q s
        (if ((qubit gate =? q) && (idx mod maxSteps =? s))%nat
         then Some gate else held)
  end.

(** What [latestFrom] finds, in terms of positions in the list. *)
Definition targetsCell (idx q s : nat) (gate : Gate) (k : nat) : Prop :=
  qubit gate = q /\ ((idx + k) mod maxSteps)%nat = s.

(** ** Quantities used for the register and the results *)

(** Whether the [forEach] callback changes anything for this gate: its
    qubit is below the qubit count and its kind has a [case]. *)
Definition actsOn (numQubits : nat) (gate : Gate) : bool :=
  (negb (numQubits <=? qubit gate)%nat
   && match switchCase (type gate) with
      | Some _ => true
      | None => false
      end)%bool.

(** The register after one gate, for a register that has an entry for
    every qubit the gate may name. *)
Definition stepRegister (numQubits : nat) (states : list QubitState)
  (gate : Gate) : list QubitState :=
  match (if actsOn numQubits gate then switchCase (type gate) else None),
        nth_error states (qubit gate) with
  | Some body, Some s => set_elem states (qubit gate) (body s)
  | _, _ => states
  end.

(** The label a draw selects, when the scan breaks. *)
Definition drawLabel (numQubits : nat) (normalized : list R) (r : R)
  : option string :=
  match sampleLoop r normalized 0 0 with
  | Some j => Some (stateLabel numQubits j)
  | None => None
  end.

(** How many of the shots [i, i + steps) select the given label. *)
Fixpoint shotsFor (numQubits : nat) (normalized : list R)
  (random : nat -> R) (label : string) (steps i : nat) : nat :=
  match steps with
  | O => 0
  | S steps' =>
      ((match drawLabel numQubits normalized (random i) with
        | Some l => if String.eqb l label then 1 else 0
        | None => 0
        end)
       + shotsFor numQubits normalized random label steps' (S i))%nat
  end.

(** The count stored under a key, 0 when the key is absent. *)
Fixpoint countOf (counts : Counts) (label : string) : nat :=
  match counts with
  | [] => 0
  | (key, c) :: rest =>
      if String.eqb key label then c else countOf rest label
  end.

(** ** Circuits without Hadamard gates *)

(** Gate kinds that exchange the weights of the two basis states. *)
Definition flipsBit (ty : GateType.t) : bool :=
  match ty with
  | GateType.X | GateType.Y => true
  | _ => false
  end.

Fixpoint toggle (bits : list bool) (q : nat) : list bool :=
  match bits, q with
  | [], _ => []
  | b :: rest, O => negb b :: rest
  | b :: rest, S q' => b :: toggle rest q'
  end.

(** The classical reading of a circuit: every qubit starts at 0 and an X
    or Y gate on a qubit below the qubit count flips it. *)
Definition classicalStep (numQubits : nat) (bits : list bool) (gate : Gate)
  : list bool :=
  if ((qubit gate <? numQubits)%nat && flipsBit (type gate))%bool
  then toggle bits (qubit gate) else bits.

Definition classicalBits (numQubits : nat) (gates : list Gate) : list bool :=
  fold_left (classicalStep numQubits) gates (repeat false numQubits).

Fixpoint bitsLabel (bits : list bool) : string :=
  match bits with
  | [] => EmptyString
  | b :: rest => String (if b then "1" else "0")%char (bitsLabel rest)
  end.

(** A qubit state that is a basis state up to phase. *)
Definition isBasisState (s : QubitState) (b : bool) : Prop :=
  ampProb (alpha s) = (if b then 0 else 1)
  /\ ampProb (beta s) = (if b then 1 else 0).
(** ** Trigonometric constants *)

Lemma SQRT1_2_sqr : SQRT1_2 * SQRT1_2 = 1 / 2.
Proof. unfold SQRT1_2. apply sqrt_sqrt. lra. Qed.

Lemma inv_sqrt2_sqr : (1 / sqrt 2) * (1 / sqrt 2) = 1 / 2.
Proof.
  assert (Hs : sqrt 2 * sqrt 2 = 2) by (apply sqrt_sqrt; lra).
  assert (Hn : sqrt 2 <> 0).
  { intro Hz. rewrite Hz in Hs. lra. }
  field_simplify_eq; [lra | assumption].
Qed.

Lemma cos_quarter_sqr : cos (PI / 4) * cos (PI / 4) = 1 / 2.
Proof. rewrite cos_PI4. apply inv_sqrt2_sqr. Qed.

Lemma sin_quarter_sqr : sin (PI / 4) * sin (PI / 4) = 1 / 2.
Proof. rewrite sin_PI4. apply inv_sqrt2_sqr. Qed.

Lemma sin_cos_quarter : sin (PI / 4) * cos (PI / 4) = 1 / 2.
Proof. rewrite sin_PI4, cos_PI4. apply inv_sqrt2_sqr. Qed.

(** ** Single-qubit gate algebra *)

Lemma applyTo_body (ty : GateType.t) (body : QubitState -> QubitState)
  (s : QubitState) :
  switchCase ty = Some body -> applyTo ty s = ret (body s).
Proof.
  intros Hb. unfold applyTo, applyGate. cbn. rewrite Hb. reflexivity.
Qed.

Lemma applyTo_no_case (ty : GateType.t) (s : QubitState) :
  switchCase ty = None -> applyTo ty s = ret s.
Proof.
  intros Hb. unfold applyTo, applyGate. cbn. rewrite Hb. reflexivity.
Qed.

Lemma caseH_norm (s : QubitState) : normSq (caseH s) = normSq s.
Proof.
  open_state s. unfold normSq, ampProb, caseH. cbn [alpha beta real imag].
  pose proof SQRT1_2_sqr as Hh.
  transitivity ((SQRT1_2 * SQRT1_2)
                * (2 * (ar * ar + ai * ai + br * br + bi * bi))).
  - ring.
  - rewrite Hh. field.
Qed.

Lemma caseT_norm (s : QubitState) : normSq (caseT s) = normSq s.
Proof.
  open_state s. unfold normSq, ampProb, caseT, set_beta.
  cbn [alpha beta real imag].
  pose proof cos_quarter_sqr as Hc. pose proof sin_quarter_sqr as Hs.
  transitivity (ar * ar + ai * ai
                + (cos (PI / 4) * cos (PI / 4) + sin (PI / 4) * sin (PI / 4))
                  * (br * br + bi * bi)).
  - ring.
  - rewrite Hc, Hs. field.
Qed.

Lemma switchCase_norm (ty : GateType.t) (body : QubitState -> QubitState)
  (s : QubitState) :
  switchCase ty = Some body -> normSq (body s) = normSq s.
Proof.
  destruct ty; cbn; intros Hb; inversion Hb; subst body; clear Hb.
  - apply caseH_norm.
  - open_state s. unfold normSq, ampProb, caseX, set_alpha, set_beta.
    cbn [alpha beta real imag]. ring.
  - open_state s. unfold normSq, ampProb, caseY, set_alpha, set_beta.
    cbn [alpha beta real imag]. ring.
  - open_state s. unfold normSq, ampProb, caseZ, set_beta.
    cbn [alpha beta real imag]. ring.
  - apply caseT_norm.
  - open_state s. unfold normSq, ampProb, caseS, set_beta.
    cbn [alpha beta real imag]. ring.
Qed.

Lemma caseH_caseH (s : QubitState) : caseH (caseH s) = s.
Proof.
  open_state s. unfold caseH. cbn [alpha beta real imag].
  pose proof SQRT1_2_sqr as Hh.
  assert (Hsum : forall a b : R,
             SQRT1_2 * (SQRT1_2 * (a + b) + SQRT1_2 * (a - b)) = a).
  { intros a b.
    transitivity ((SQRT1_2 * SQRT1_2) * (2 * a)); [ring | rewrite Hh; field]. }
  assert (Hdif : forall a b : R,
             SQRT1_2 * (SQRT1_2 * (a + b) - SQRT1_2 * (a - b)) = b).
  { intros a b.
    transitivity ((SQRT1_2 * SQRT1_2) * (2 * b)); [ring | rewrite Hh; field]. }
  rewrite !Hsum, !Hdif. reflexivity.
Qed.

Lemma caseX_caseX (s : QubitState) : caseX (caseX s) = s.
Proof. open_state s. reflexivity. Qed.

Lemma caseY_caseY (s : QubitState) : caseY (caseY s) = s.
Proof. open_state s. unfold caseY. state_eq; ring. Qed.

Lemma caseZ_caseZ (s : QubitState) : caseZ (caseZ s) = s.
Proof. open_state s. unfold caseZ. state_eq; ring. Qed.

Lemma caseS_caseS (s : QubitState) : caseS (caseS s) = caseZ s.
Proof. open_state s. unfold caseS, caseZ. state_eq. Qed.

Lemma caseT_caseT (s : QubitState) : caseT (caseT s) = caseS s.
Proof.
  open_state s. unfold caseT, caseS. state_eq.
  - pose proof cos_quarter_sqr as Hc. pose proof sin_quarter_sqr as Hs.
    pose proof sin_cos_quarter as Hsc.
    transitivity ((cos (PI / 4) * cos (PI / 4) - sin (PI / 4) * sin (PI / 4))
                  * br - 2 * (sin (PI / 4) * cos (PI / 4)) * bi).
    + ring.
    + rewrite Hc, Hs, Hsc. field.
  - pose proof cos_quarter_sqr as Hc. pose proof sin_quarter_sqr as Hs.
    pose proof sin_cos_quarter as Hsc.
    transitivity (2 * (sin (PI / 4) * cos (PI / 4)) * br
                  + (cos (PI / 4) * cos (PI / 4) - sin (PI / 4) * sin (PI / 4))
                    * bi).
    + ring.
    + rewrite Hc, Hs, Hsc. field.
Qed.

(** ** Claims about single gate applications *)

Lemma unitaryKinds_have_case (ty : GateType.t) :
  In ty unitaryKinds -> exists body, switchCase ty = Some body.
Proof.
  unfold unitaryKinds. cbn [In].
  intros [<- | [<- | [<- | [<- | [<- | [<- | []]]]]]]; cbn; eauto.
Qed.

(** C2. For every single qubit state and every gate kind with a [case]
    in the switch (H, X, Y, Z, S, T), one application of the gate
    succeeds and leaves [|alpha|^2 + |beta|^2] unchanged. *)
Theorem gate_preserves_norm (ty : GateType.t) (s : QubitState) :
  In ty unitaryKinds ->
  exists s', applyTo ty s = ret s' /\ normSq s' = normSq s.
Proof.
  intros Hty. destruct (unitaryKinds_have_case ty Hty) as [body Hb].
  exists (body s). split.
  - apply applyTo_body, Hb.
  - eapply switchCase_norm, Hb.
Qed.

Lemma gate_preserves_norm_witness :
  In GateType.T unitaryKinds /\
  exists s', applyTo GateType.T ket0 = ret s' /\ normSq s' = normSq ket0.
Proof.
  split.
  - simpl. tauto.
  - apply (gate_preserves_norm GateType.T ket0). simpl. tauto.
Defined.

(** C4. A gate whose target index is not below the qubit count is
    skipped: the callback returns normally with the state array it was
    given. *)
Theorem out_of_range_gate_is_noop (numQubits : nat)
  (states : list QubitState) (gate : Gate) :
  (numQubits <= qubit gate)%nat ->
  applyGate numQubits states gate = ret states.
Proof.
  intros Hq. unfold applyGate.
  destruct (Nat.leb_spec numQubits (qubit gate)); [reflexivity | lia].
Qed.

Lemma out_of_range_gate_is_noop_witness :
  (2 <= qubit (mkGate "g" GateType.X 2 None))%nat /\
  applyGate 2 [ket0; ket0] (mkGate "g" GateType.X 2 None)
  = ret [ket0; ket0].
Proof.
  split.
  - simpl. lia.
  - apply (out_of_range_gate_is_noop 2 [ket0; ket0]
             (mkGate "g" GateType.X 2 None)).
    simpl. lia.
Defined.

(** C7. For every single qubit state, applying X, Y, Z or H twice in
    succession gives back the state it started from. *)
Theorem involutory_gate_twice (ty : GateType.t) (s : QubitState) :
  In ty involutoryKinds ->
  (s1 <- applyTo ty s ;; applyTo ty s1) = ret s.
Proof.
  unfold involutoryKinds. cbn [In].
  intros [<- | [<- | [<- | [<- | []]]]].
  - rewrite (applyTo_body GateType.X caseX) by reflexivity. cbn [bind ret].
    rewrite (applyTo_body GateType.X caseX) by reflexivity.
    now rewrite caseX_caseX.
  - rewrite (applyTo_body GateType.Y caseY) by reflexivity. cbn [bind ret].
    rewrite (applyTo_body GateType.Y caseY) by reflexivity.
    now rewrite caseY_caseY.
  - rewrite (applyTo_body GateType.Z caseZ) by reflexivity. cbn [bind ret].
    rewrite (applyTo_body GateType.Z caseZ) by reflexivity.
    now rewrite caseZ_caseZ.
  - rewrite (applyTo_body GateType.H caseH) by reflexivity. cbn [bind ret].
    rewrite (applyTo_body GateType.H caseH) by reflexivity.
    now rewrite caseH_caseH.
Qed.

Lemma involutory_gate_twice_witness :
  In GateType.H involutoryKinds /\
  (s1 <- applyTo GateType.H ket0 ;; applyTo GateType.H s1) = ret ket0.
Proof.
  split.
  - simpl. tauto.
  - apply (involutory_gate_twice GateType.H ket0). simpl. tauto.
Defined.

(** C8. For every single qubit state, S applied twice succeeds and
    gives the state that Z applied once gives. *)
Theorem phaseS_twice_is_pauliZ (s : QubitState) :
  (s1 <- applyTo GateType.S s ;; applyTo GateType.S s1)
  = applyTo GateType.Z s
  /\ applyTo GateType.Z s = ret (caseZ s).
Proof.
  rewrite (applyTo_body GateType.S caseS) by reflexivity. cbn [bind ret].
  rewrite (applyTo_body GateType.S caseS) by reflexivity.
  rewrite (applyTo_body GateType.Z caseZ) by reflexivity.
  now rewrite caseS_caseS.
Qed.

(** C9. For every single qubit state, T applied twice succeeds and
    gives the state that S applied once gives. *)
Theorem phaseT_twice_is_phaseS (s : QubitState) :
  (s1 <- applyTo GateType.T s ;; applyTo GateType.T s1)
  = applyTo GateType.S s
  /\ applyTo GateType.S s = ret (caseS s).
Proof.
  rewrite (applyTo_body GateType.T caseT) by reflexivity. cbn [bind ret].
  rewrite (applyTo_body GateType.T caseT) by reflexivity.
  rewrite (applyTo_body GateType.S caseS) by reflexivity.
  now rewrite caseT_caseT.
Qed.

(** C10. A gate of kind CNOT or M changes nothing: for every state
    array, target and control index, the callback returns the array it
    was given, so no amplitude of any qubit is modified. *)
Theorem cnot_and_measure_are_noops (numQubits : nat)
  (states : list QubitState) (gate : Gate) :
  type gate = GateType.CNOT \/ type gate = GateType.M ->
  applyGate numQubits states gate = ret states.
Proof.
  intros Hty. unfold applyGate.
  destruct (numQubits <=? qubit gate)%nat; [reflexivity |].
  destruct Hty as [-> | ->]; reflexivity.
Qed.

Lemma cnot_and_measure_are_noops_witness :
  (type (mkGate "g" GateType.CNOT 1 (Some 0%nat)) = GateType.CNOT \/
   type (mkGate "g" GateType.CNOT 1 (Some 0%nat)) = GateType.M) /\
  applyGate 2 [caseX ket0; ket0] (mkGate "g" GateType.CNOT 1 (Some 0%nat))
  = ret [caseX ket0; ket0].
Proof.
  split.
  - left. reflexivity.
  - apply (cnot_and_measure_are_noops 2 [caseX ket0; ket0]
             (mkGate "g" GateType.CNOT 1 (Some 0%nat))).
    left. reflexivity.
Defined.

(** ** The register under gate application *)

Lemma length_set_elem {A : Type} (arr : list A) (i : nat) (v : A) :
  length (set_elem arr i v) = length arr.
Proof.
  revert i. induction arr as [| a rest IH]; intros [| i']; cbn; auto.
Qed.

Lemma Forall_set_elem {A : Type} (P : A -> Prop) (arr : list A) (i : nat)
  (v : A) :
  Forall P arr -> P v -> Forall P (set_elem arr i v).
Proof.
  intros Harr Hv. revert i.
  induction Harr as [| a rest Ha Hrest IH]; intros [| i']; cbn;
    constructor; auto.
Qed.

Lemma elem_in_range {A : Type} (arr : list A) (i : nat) :
  (i < length arr)%nat -> exists a, elem arr i = ret a /\ In a arr.
Proof.
  intros Hi. unfold elem.
  destruct (nth_error arr i) as [a |] eqn:Hnth.
  - exists a. split; [reflexivity | eapply nth_error_In, Hnth].
  - apply nth_error_None in Hnth. lia.
Qed.

Lemma initStates_unit (numQubits : nat) :
  unitRegister numQubits (initStates numQubits).
Proof.
  unfold unitRegister, initStates. split.
  - now rewrite length_map, repeat_length.
  - apply Forall_forall. intros s Hs. apply in_map_iff in Hs.
    destruct Hs as [_ [<- _]].
    unfold normSq, ampProb, ket0. cbn. ring.
Qed.

Lemma applyGate_unit (numQubits : nat) (states : list QubitState)
  (gate : Gate) :
  unitRegister numQubits states ->
  exists states', applyGate numQubits states gate = ret states'
                  /\ unitRegister numQubits states'.
Proof.
  intros [Hlen Hnorm]. unfold applyGate.
  destruct (Nat.leb_spec numQubits (qubit gate)) as [Hout | Hin].
  - exists states. split; [reflexivity | split; assumption].
  - destruct (switchCase (type gate)) as [body |] eqn:Hcase.
    + destruct (elem_in_range states (qubit gate)) as [s [Hs Hmem]];
        [lia |].
      rewrite Hs. cbn [bind ret].
      exists (set_elem states (qubit gate) (body s)). split; [reflexivity |].
      split.
      * now rewrite length_set_elem.
      * apply Forall_set_elem; [assumption |].
        rewrite (switchCase_norm _ _ s Hcase).
        rewrite Forall_forall in Hnorm. now apply Hnorm.
    + exists states. split; [reflexivity | split; assumption].
Qed.

Lemma applyGates_unit (numQubits : nat) (gates : list Gate) :
  forall states,
    unitRegister numQubits states ->
    exists states', applyGates numQubits states gates = ret states'
                    /\ unitRegister numQubits states'.
Proof.
  induction gates as [| gate rest IH]; intros states Hunit; cbn [applyGates].
  - exists states. split; [reflexivity | assumption].
  - destruct (applyGate_unit numQubits states gate Hunit)
      as [states1 [Hstep Hunit1]].
    rewrite Hstep. cbn [bind ret]. apply IH, Hunit1.
Qed.

(** ** The probability table *)

Lemma skipn_nth_error {A : Type} (l : list A) (k : nat) (a : A) :
  nth_error l k = Some a -> skipn k l = a :: skipn (S k) l.
Proof.
  revert k. induction l as [| b rest IH]; intros [| k'] Hk; cbn in *;
    try discriminate.
  - now inversion Hk.
  - now apply IH.
Qed.

Lemma bitAt_bitOf (numQubits i q : nat) :
  (q < numQubits)%nat -> bitAt numQubits i q = bitOf i (numQubits - 1 - q).
Proof.
  intros Hq. unfold bitAt, bitOf. do 2 f_equal. lia.
Qed.

Lemma qubit_loop_value (numQubits : nat) (states : list QubitState)
  (i : nat) :
  length states = numQubits ->
  forall steps q acc,
    (q + steps = numQubits)%nat ->
    forLoop steps q (qubitStep numQubits states i) acc
    = ret (acc * jointWeight (skipn q states) i).
Proof.
  intros Hlen. induction steps as [| steps IH]; intros q acc Hsum.
  - cbn [forLoop]. rewrite skipn_all2 by lia. cbn. f_equal. ring.
  - cbn [forLoop]. unfold qubitStep at 1.
    destruct (nth_error states q) as [s |] eqn:Hnth.
    2:{ apply nth_error_None in Hnth. lia. }
    unfold elem. rewrite Hnth. cbn [bind ret].
    rewrite IH by lia.
    rewrite (skipn_nth_error _ _ _ Hnth). cbn [jointWeight].
    rewrite length_skipn, Hlen.
    rewrite bitAt_bitOf by lia.
    replace (numQubits - S q)%nat with (numQubits - 1 - q)%nat by lia.
    unfold weight. f_equal. ring.
Qed.

Lemma basisProb_value (states : list QubitState) (i : nat) :
  basisProb (length states) states i = ret (jointWeight states i).
Proof.
  unfold basisProb.
  rewrite (qubit_loop_value (length states) states i eq_refl) by lia.
  cbn [skipn]. f_equal. ring.
Qed.

Lemma push_loop_value {A : Type} (f : nat -> Js A) (g : nat -> A) :
  (forall i, f i = ret (g i)) ->
  forall steps start acc,
    forLoop steps start (fun i xs => x <- f i ;; ret (xs ++ [x])) acc
    = ret (acc ++ map g (seq start steps)).
Proof.
  intros Hf. induction steps as [| steps IH]; intros start acc.
  - cbn. now rewrite app_nil_r.
  - cbn [forLoop seq map]. rewrite Hf. cbn [bind ret].
    rewrite IH. now rewrite <- app_assoc.
Qed.

Lemma computeProbabilities_value (states : list QubitState) :
  computeProbabilities (length states) states
  = ret (map (jointWeight states) (seq 0 (numStatesOf (length states)))).
Proof.
  unfold computeProbabilities.
  now rewrite (push_loop_value _ (jointWeight states) (basisProb_value states)).
Qed.

(** *** Bits of an index *)

Lemma bitOf_div (i k : nat) :
  bitOf i k = ((Z.of_nat i / 2 ^ Z.of_nat k) mod 2)%Z.
Proof.
  unfold bitOf. rewrite Z.shiftr_div_pow2 by lia.
  change 1%Z with (Z.ones 1). now rewrite Z.land_ones by lia.
Qed.

Lemma pow2_of_nat (k : nat) : Z.of_nat (2 ^ k) = (2 ^ Z.of_nat k)%Z.
Proof. now rewrite Nat2Z.inj_pow. Qed.

Lemma bitOf_below (i k : nat) : (i < 2 ^ k)%nat -> bitOf i k = 0%Z.
Proof.
  intros Hi. rewrite bitOf_div.
  rewrite Z.div_small; [reflexivity |].
  rewrite <- pow2_of_nat. lia.
Qed.

Lemma bitOf_top (i k : nat) : (i < 2 ^ k)%nat -> bitOf (2 ^ k + i) k = 1%Z.
Proof.
  intros Hi. rewrite bitOf_div.
  rewrite Nat2Z.inj_add, pow2_of_nat.
  assert (Hpos : (0 < 2 ^ Z.of_nat k)%Z) by (apply Z.pow_pos_nonneg; lia).
  replace (2 ^ Z.of_nat k + Z.of_nat i)%Z
    with (1 * 2 ^ Z.of_nat k + Z.of_nat i)%Z by lia.
  rewrite Z.div_add_l by lia.
  rewrite Z.div_small; [reflexivity |].
  rewrite <- pow2_of_nat. lia.
Qed.

Lemma bitOf_add_pow (i m k : nat) :
  (k < m)%nat -> bitOf (2 ^ m + i) k = bitOf i k.
Proof.
  intros Hk. rewrite !bitOf_div.
  rewrite Nat2Z.inj_add, pow2_of_nat.
  assert (Hpos : (0 < 2 ^ Z.of_nat k)%Z) by (apply Z.pow_pos_nonneg; lia).
  replace (2 ^ Z.of_nat m)%Z
    with (2 ^ (Z.of_nat m - Z.of_nat k) * 2 ^ Z.of_nat k)%Z
    by (rewrite <- Z.pow_add_r by lia; f_equal; lia).
  rewrite Z.div_add_l by lia.
  replace (Z.of_nat m - Z.of_nat k)%Z
    with (Z.succ (Z.of_nat m - Z.of_nat k - 1))%Z by lia.
  rewrite Z.pow_succ_r by lia.
  rewrite Z.add_comm, Z.mul_comm.
  now rewrite Z.mod_add by lia.
Qed.

Lemma jointWeight_add_pow (states : list QubitState) (i m : nat) :
  (length states <= m)%nat ->
  jointWeight states (2 ^ m + i) = jointWeight states i.
Proof.
  induction states as [| s rest IH]; intros Hm; cbn [jointWeight].
  - reflexivity.
  - cbn [length] in Hm. rewrite bitOf_add_pow by lia.
    now rewrite IH by lia.
Qed.

(** *** The table sums to the product of the norms *)

Lemma sumR_app (l1 l2 : list R) : sumR (l1 ++ l2) = sumR l1 + sumR l2.
Proof.
  unfold sumR. induction l1 as [| x l1 IH]; cbn.
  - ring.
  - fold (sumR (l1 ++ l2)) in *. rewrite IH. ring.
Qed.

Lemma sumR_scale (c : R) (l : list R) :
  sumR (map (fun x => c * x) l) = c * sumR l.
Proof.
  unfold sumR. induction l as [| x l IH]; cbn.
  - ring.
  - rewrite IH. ring.
Qed.

Lemma fold_left_Rplus (l : list R) (acc : R) :
  fold_left Rplus l acc = acc + sumR l.
Proof.
  revert acc. induction l as [| x l IH]; intros acc; cbn.
  - ring.
  - rewrite IH. unfold sumR. ring.
Qed.

Lemma totalOf_sumR (l : list R) : totalOf l = sumR l.
Proof. unfold totalOf. rewrite fold_left_Rplus. ring. Qed.

Lemma seq_shift_add (start len : nat) :
  seq start len = map (fun i => (start + i)%nat) (seq 0 len).
Proof.
  revert start. induction len as [| len IH]; intros start; cbn.
  - reflexivity.
  - f_equal; [lia |]. rewrite (IH (S start)), (IH 1%nat), map_map.
    apply map_ext. intros i. lia.
Qed.

Lemma table_sum (states : list QubitState) :
  sumR (map (jointWeight states) (seq 0 (2 ^ length states)))
  = prodNorm states.
Proof.
  induction states as [| s rest IH].
  - cbn. ring.
  - cbn [length prodNorm fold_right]. fold (prodNorm rest).
    set (m := length rest) in *.
    replace (2 ^ S m)%nat with (2 ^ m + 2 ^ m)%nat by (cbn; lia).
    rewrite seq_app, map_app, sumR_app. cbn [Nat.add].
    rewrite (seq_shift_add (2 ^ m) (2 ^ m)), map_map.
    rewrite (map_ext_in (jointWeight (s :: rest))
               (fun i => ampProb (alpha s) * jointWeight rest i)).
    2:{ intros i Hi. apply in_seq in Hi. cbn [jointWeight]. fold m.
        rewrite bitOf_below by lia. reflexivity. }
    rewrite (map_ext_in (fun i => jointWeight (s :: rest) (2 ^ m + i))
               (fun i => ampProb (beta s) * jointWeight rest i)).
    2:{ intros i Hi. apply in_seq in Hi. cbn [jointWeight]. fold m.
        rewrite bitOf_top by lia.
        rewrite jointWeight_add_pow by (unfold m; lia). reflexivity. }
    rewrite <- (map_map (jointWeight rest) (fun x => ampProb (alpha s) * x)).
    rewrite <- (map_map (jointWeight rest) (fun x => ampProb (beta s) * x)).
    rewrite !sumR_scale, IH. unfold normSq. ring.
Qed.

Lemma prodNorm_unit (states : list QubitState) :
  Forall (fun s => normSq s = 1) states -> prodNorm states = 1.
Proof.
  induction 1 as [| s rest Hs Hrest IH]; cbn.
  - reflexivity.
  - fold (prodNorm rest). rewrite Hs, IH. ring.
Qed.

Lemma table_total_one (numQubits : nat) (states : list QubitState) :
  unitRegister numQubits states ->
  totalOf (map (jointWeight states) (seq 0 (numStatesOf numQubits))) = 1.
Proof.
  intros [Hlen Hnorm]. subst numQubits.
  rewrite totalOf_sumR. unfold numStatesOf.
  rewrite table_sum. now apply prodNorm_unit.
Qed.

(** ** The 32-bit operators agree with [bitAt] *)





(** ** Sampling *)

Lemma sumR_normalize (l : list R) :
  totalOf l <> 0 -> sumR (normalize l) = 1.
Proof.
  intros Hnz. unfold normalize.
  assert (Hdiv : forall t xs, sumR (map (fun p => p / t) xs) = sumR xs / t).
  { intros t xs. unfold sumR. induction xs as [| x xs IH]; cbn.
    - unfold Rdiv. ring.
    - rewrite IH. unfold Rdiv. ring. }
  rewrite Hdiv, <- totalOf_sumR. now field.
Qed.

(** Once the running sum is below the draw, the scan breaks somewhere in
    the remaining entries provided they carry it up to the draw. *)
Lemma sampleLoop_reaches (r : R) (l : list R) :
  forall j cumulative,
    cumulative < r -> r <= cumulative + sumR l ->
    exists k, sampleLoop r l j cumulative = Some k.
Proof.
  induction l as [| p rest IH]; intros j cumulative Hlt Hle.
  - cbn in Hle. lra.
  - cbn [sampleLoop].
    destruct (Rle_dec r (cumulative + p)) as [Hhit | Hmiss].
    + now exists j.
    + apply IH.
      * lra.
      * unfold sumR in *. cbn in Hle. lra.
Qed.

Lemma sampleLoop_hits (r : R) (l : list R) :
  l <> [] -> r <= sumR l -> exists k, sampleLoop r l 0 0 = Some k.
Proof.
  destruct l as [| p rest]; [congruence |]. intros _ Hle.
  cbn [sampleLoop].
  destruct (Rle_dec r (0 + p)) as [Hhit | Hmiss].
  - now exists 0%nat.
  - apply sampleLoop_reaches.
    + lra.
    + unfold sumR in *. cbn in Hle. lra.
Qed.

Lemma totalCount_increment (counts : Counts) (key : string) :
  totalCount (increment counts key) = S (totalCount counts).
Proof.
  induction counts as [| [k c] rest IH]; cbn [increment].
  - reflexivity.
  - destruct (String.eqb k key); cbn [totalCount fold_right snd] in *.
    + lia.
    + fold (totalCount (increment rest key)). fold (totalCount rest).
      rewrite IH. lia.
Qed.

Section Shots.

  Variables (numQubits : nat) (normalized : list R) (random : nat -> R).

  (** When every draw breaks the scan, each shot adds one count. *)
  Hypothesis every_shot_hits :
    forall i, exists k, sampleLoop (random i) normalized 0 0 = Some k.

Lemma sampleShots_total (steps i : nat) (counts : Counts) :
  totalCount (sampleShots numQubits normalized random steps i counts)
  = (totalCount counts + steps)%nat.
Proof.
  revert i counts. induction steps as [| steps IH]; intros i counts.
  - cbn [sampleShots]. lia.
  - cbn [sampleShots]. rewrite IH. unfold shot.
    destruct (every_shot_hits i) as [k ->]. rewrite totalCount_increment. lia.
Qed.

End Shots.

(** *** Enumeration order and sorting only permute *)

Lemma insertByIndex_perm (kv : string * nat) (sorted : Counts) :
  Permutation (insertByIndex kv sorted) (kv :: sorted).
Proof.
  induction sorted as [| kv' rest IH]; cbn [insertByIndex].
  - reflexivity.
  - destruct (indexOfKey kv <=? indexOfKey kv')%N.
    + reflexivity.
    + rewrite IH. apply perm_swap.
Qed.

Lemma filter_split_perm {A : Type} (f : A -> bool) (l : list A) :
  Permutation (filter f l ++ filter (fun a => negb (f a)) l) l.
Proof.
  induction l as [| a rest IH]; cbn [filter].
  - reflexivity.
  - destruct (f a); cbn [negb app].
    + now constructor.
    + rewrite <- Permutation_middle. now constructor.
Qed.

Lemma objectEntries_perm (counts : Counts) :
  Permutation (objectEntries counts) counts.
Proof.
  unfold objectEntries.
  rewrite <- (filter_split_perm isIndexKey counts) at 3.
  apply Permutation_app_tail.
  induction (filter isIndexKey counts) as [| kv rest IH]; cbn [fold_right].
  - reflexivity.
  - rewrite insertByIndex_perm. now constructor.
Qed.

Lemma insertByCount_perm (a : Result) (sorted : list Result) :
  Permutation (insertByCount a sorted) (a :: sorted).
Proof.
  induction sorted as [| b rest IH]; cbn [insertByCount].
  - reflexivity.
  - destruct (count b <=? count a)%nat.
    + reflexivity.
    + rewrite IH. apply perm_swap.
Qed.

Lemma sortByCount_perm (results : list Result) :
  Permutation (sortByCount results) results.
Proof.
  unfold sortByCount. induction results as [| a rest IH]; cbn [fold_right].
  - reflexivity.
  - rewrite insertByCount_perm. now constructor.
Qed.

Lemma sumR_perm (l l' : list R) : Permutation l l' -> sumR l = sumR l'.
Proof.
  unfold sumR. induction 1; cbn; try lra.
Qed.

Lemma sumCount_perm (l l' : list Result) :
  Permutation l l' -> sumCount l = sumCount l'.
Proof.
  unfold sumCount. induction 1; cbn; lia.
Qed.

Lemma sumCount_toResult (shots : nat) (kvs : Counts) :
  sumCount (map (toResult shots) kvs) = totalCount kvs.
Proof.
  unfold sumCount, totalCount. induction kvs as [| kv rest IH]; cbn.
  - reflexivity.
  - now rewrite IH.
Qed.

Lemma sumProbability_toResult (shots : nat) (kvs : Counts) :
  sumProbability (map (toResult shots) kvs)
  = INR (totalCount kvs) / INR shots.
Proof.
  unfold sumProbability, sumR, totalCount.
  induction kvs as [| kv rest IH]; cbn [map fold_right].
  - cbn. unfold Rdiv. ring.
  - rewrite IH, plus_INR. cbn [toResult probability]. unfold Rdiv. ring.
Qed.

Lemma results_sums (shots : nat) (counts : Counts) :
  let results := sortByCount (map (toResult shots) (objectEntries counts)) in
  sumProbability results = INR (totalCount counts) / INR shots
  /\ sumCount results = totalCount counts.
Proof.
  intros results.
  assert (Hperm : Permutation results (map (toResult shots) counts)).
  { unfold results. rewrite sortByCount_perm.
    apply Permutation_map, objectEntries_perm. }
  split.
  - unfold sumProbability.
    rewrite (sumR_perm _ _ (Permutation_map probability Hperm)).
    apply sumProbability_toResult.
  - rewrite (sumCount_perm _ _ Hperm). apply sumCount_toResult.
Qed.

(** ** The whole run *)

(** The probability table of a register, as the run builds it. *)
Lemma simulateCircuit_value (numQubits : nat) (gates : list Gate)
  (shots : nat) (random : nat -> R) :
  exists states,
    applyGates numQubits (initStates numQubits) gates = ret states
    /\ unitRegister numQubits states
    /\ simulateCircuit numQubits gates shots random
       = ret {| qubitStates := states;
                measurementResults :=
                  sortByCount
                    (map (toResult shots)
                       (objectEntries
                          (sampleShots numQubits
                             (normalize
                                (map (jointWeight states)
                                   (seq 0 (numStatesOf numQubits))))
                             random shots 0 []))) |}.
Proof.
  destruct (applyGates_unit numQubits gates (initStates numQubits)
              (initStates_unit numQubits)) as [states [Hrun Hunit]].
  exists states. split; [assumption |]. split; [assumption |].
  unfold simulateCircuit. rewrite Hrun. cbn [bind ret].
  destruct Hunit as [Hlen _]. subst numQubits.
  rewrite computeProbabilities_value. reflexivity.
Qed.

Lemma numStatesOf_pos (numQubits : nat) : (0 < numStatesOf numQubits)%nat.
Proof.
  unfold numStatesOf.
  pose proof (Nat.pow_nonzero 2 numQubits). lia.
Qed.

Lemma table_nonempty (numQubits : nat) (states : list QubitState) :
  normalize (map (jointWeight states) (seq 0 (numStatesOf numQubits))) <> [].
Proof.
  unfold normalize. pose proof (numStatesOf_pos numQubits) as Hpos.
  destruct (numStatesOf numQubits); [lia |]. cbn. discriminate.
Qed.

(** Every draw below 1 is assigned to a basis state. *)
Lemma every_draw_hits (numQubits : nat) (states : list QubitState) (r : R) :
  unitRegister numQubits states -> r < 1 ->
  exists k,
    sampleLoop r
      (normalize (map (jointWeight states) (seq 0 (numStatesOf numQubits))))
      0 0 = Some k.
Proof.
  intros Hunit Hr. apply sampleLoop_hits.
  - apply table_nonempty.
  - rewrite sumR_normalize; [lra |].
    rewrite (table_total_one numQubits states Hunit). lra.
Qed.

(** *** The empty circuit *)

Lemma jointWeight_init_zero (numQubits : nat) :
  jointWeight (initStates numQubits) 0 = 1.
Proof.
  unfold initStates. induction numQubits as [| n IH]; cbn [repeat map jointWeight].
  - reflexivity.
  - rewrite IH. rewrite bitOf_below.
    + unfold weight, ampProb, ket0. cbn. ring.
    + pose proof (Nat.pow_nonzero 2 (length (map (fun _ : unit => ket0)
                                               (repeat tt n)))). lia.
Qed.

Lemma empty_circuit_draw (numQubits : nat) (r : R) :
  r < 1 ->
  sampleLoop r
    (normalize (map (jointWeight (initStates numQubits))
                  (seq 0 (numStatesOf numQubits))))
    0 0 = Some 0%nat.
Proof.
  intros Hr. unfold normalize.
  rewrite (table_total_one numQubits _ (initStates_unit numQubits)).
  pose proof (numStatesOf_pos numQubits) as Hpos.
  destruct (numStatesOf numQubits) as [| m]; [lia |].
  cbn [seq map sampleLoop]. rewrite jointWeight_init_zero.
  destruct (Rle_dec r (0 + 1 / 1)) as [_ | Hmiss]; [reflexivity |].
  exfalso. apply Hmiss. lra.
Qed.

Lemma increment_single (key : string) (c : nat) :
  increment [(key, c)] key = [(key, S c)].
Proof. cbn. now rewrite String.eqb_refl. Qed.

Lemma sampleShots_single (numQubits : nat) (normalized : list R)
  (random : nat -> R) (j : nat) :
  (forall i, sampleLoop (random i) normalized 0 0 = Some j) ->
  forall steps i c,
    sampleShots numQubits normalized random steps i
      [(stateLabel numQubits j, c)]
    = [(stateLabel numQubits j, (c + steps)%nat)].
Proof.
  intros Hhit. induction steps as [| steps IH]; intros i c.
  - cbn [sampleShots]. now rewrite Nat.add_0_r.
  - cbn [sampleShots]. unfold shot. rewrite Hhit, increment_single, IH.
    replace (S c + steps)%nat with (c + S steps)%nat by lia. reflexivity.
Qed.

Lemma zeros_snoc (k : nat) :
  (zeros k ++ "0")%string = zeros (S k).
Proof.
  induction k as [| k IH]; cbn.
  - reflexivity.
  - cbn in IH. now rewrite IH.
Qed.

Lemma stateLabel_zero (numQubits : nat) :
  (1 <= numQubits)%nat -> stateLabel numQubits 0 = zeros numQubits.
Proof.
  intros Hn. unfold stateLabel, padStart0, toString2. cbn [N.of_nat String.length].
  destruct numQubits as [| n]; [lia |].
  replace (S n - 1)%nat with n by lia. apply zeros_snoc.
Qed.

(** ** Bitstrings and state labels *)

Lemma binaryValue_bound (b : string) :
  (binaryValue b < 2 ^ String.length b)%nat.
Proof.
  induction b as [| c b' IH]; cbn [binaryValue String.length].
  - cbn. lia.
  - rewrite Nat.pow_succ_r'. destruct (Ascii.eqb c "1"); lia.
Qed.

Lemma jointWeight_binaryValue (states : list QubitState) :
  forall b,
    isBitstring b = true -> String.length b = length states ->
    jointWeight states (binaryValue b) = jointProbability states b.
Proof.
  induction states as [| s rest IH]; intros b Hbits Hlen.
  - destruct b; [reflexivity | discriminate].
  - destruct b as [| c b']; [discriminate |].
    cbn [isBitstring] in Hbits. apply andb_prop in Hbits.
    destruct Hbits as [Hc Hb'].
    cbn [String.length length] in Hlen. injection Hlen as Hlen.
    cbn [jointWeight binaryValue jointProbability].
    pose proof (binaryValue_bound b') as Hbound. rewrite Hlen in *.
    destruct (Ascii.eqb_spec c "0") as [-> | Hnot0].
    + cbn [Ascii.eqb Bool.eqb]. cbn [Nat.add].
      rewrite bitOf_below by assumption.
      unfold weight. cbn [Z.eqb]. now rewrite IH.
    + cbn [orb] in Hc. rewrite Hc.
      rewrite bitOf_top by assumption.
      rewrite jointWeight_add_pow by lia.
      unfold weight. cbn [Z.eqb]. now rewrite IH.
Qed.

Lemma nth_error_map_seq {A : Type} (f : nat -> A) (len j : nat) :
  (j < len)%nat -> nth_error (map f (seq 0 len)) j = Some (f j).
Proof.
  intros Hj. rewrite nth_error_map, nth_error_seq.
  destruct (Nat.ltb_spec j len); [reflexivity | lia].
Qed.

(** *** [toString(2)] and [padStart] *)

Lemma string_length_app (s1 s2 : string) :
  String.length (s1 ++ s2) = (String.length s1 + String.length s2)%nat.
Proof.
  induction s1 as [| c s1 IH]; cbn; [reflexivity | now rewrite IH].
Qed.

Lemma isBitstring_app (s1 s2 : string) :
  isBitstring (s1 ++ s2) = (isBitstring s1 && isBitstring s2)%bool.
Proof.
  induction s1 as [| c s1 IH]; cbn [append isBitstring].
  - reflexivity.
  - now rewrite IH, andb_assoc.
Qed.

Lemma binaryValue_app (s1 s2 : string) :
  binaryValue (s1 ++ s2)
  = (binaryValue s1 * 2 ^ String.length s2 + binaryValue s2)%nat.
Proof.
  induction s1 as [| c s1 IH]; cbn [append binaryValue].
  - reflexivity.
  - rewrite IH, string_length_app, Nat.pow_add_r.
    destruct (Ascii.eqb c "1"); lia.
Qed.

Lemma length_zeros (k : nat) : String.length (zeros k) = k.
Proof. induction k as [| k IH]; cbn; [reflexivity | now rewrite IH]. Qed.

Lemma isBitstring_zeros (k : nat) : isBitstring (zeros k) = true.
Proof. induction k as [| k IH]; cbn; [reflexivity | exact IH]. Qed.

Lemma binaryValue_zeros (k : nat) : binaryValue (zeros k) = 0%nat.
Proof. induction k as [| k IH]; cbn; [reflexivity | exact IH]. Qed.

Lemma isBitstring_binaryDigits (p : positive) :
  isBitstring (binaryDigits p) = true.
Proof.
  induction p as [p IH | p IH |]; cbn [binaryDigits].
  - now rewrite isBitstring_app, IH.
  - now rewrite isBitstring_app, IH.
  - reflexivity.
Qed.

Lemma binaryValue_binaryDigits (p : positive) :
  binaryValue (binaryDigits p) = Pos.to_nat p.
Proof.
  induction p as [p IH | p IH |]; cbn [binaryDigits].
  - rewrite binaryValue_app, IH. cbn. lia.
  - rewrite binaryValue_app, IH. cbn. lia.
  - reflexivity.
Qed.

Lemma length_binaryDigits (p : positive) :
  (2 ^ String.length (binaryDigits p) <= 2 * Pos.to_nat p)%nat.
Proof.
  induction p as [p IH | p IH |]; cbn [binaryDigits].
  - rewrite string_length_app. cbn [String.length].
    rewrite Nat.add_1_r, Nat.pow_succ_r'. lia.
  - rewrite string_length_app. cbn [String.length].
    rewrite Nat.add_1_r, Nat.pow_succ_r'. lia.
  - cbn. lia.
Qed.

Lemma isBitstring_toString2 (j : nat) : isBitstring (toString2 j) = true.
Proof.
  unfold toString2. destruct (N.of_nat j); [reflexivity |].
  apply isBitstring_binaryDigits.
Qed.

Lemma binaryValue_toString2 (j : nat) : binaryValue (toString2 j) = j.
Proof.
  unfold toString2. destruct (N.of_nat j) as [| p] eqn:Hj.
  - cbn. lia.
  - rewrite binaryValue_binaryDigits. lia.
Qed.

Lemma length_toString2 (n j : nat) :
  (1 <= n)%nat -> (j < 2 ^ n)%nat -> (String.length (toString2 j) <= n)%nat.
Proof.
  intros Hn Hj. unfold toString2. destruct (N.of_nat j) as [| p] eqn:Hp.
  - cbn. lia.
  - pose proof (length_binaryDigits p) as Hlen.
    assert (Hpj : Pos.to_nat p = j) by lia.
    assert (Hlt : (2 ^ String.length (binaryDigits p) < 2 ^ S n)%nat).
    { rewrite Nat.pow_succ_r'. lia. }
    apply Nat.pow_lt_mono_r_iff in Hlt; lia.
Qed.

Lemma isBitstring_stateLabel (n j : nat) : isBitstring (stateLabel n j) = true.
Proof.
  unfold stateLabel, padStart0.
  now rewrite isBitstring_app, isBitstring_zeros, isBitstring_toString2.
Qed.

Lemma binaryValue_stateLabel (n j : nat) : binaryValue (stateLabel n j) = j.
Proof.
  unfold stateLabel, padStart0.
  rewrite binaryValue_app, binaryValue_zeros, binaryValue_toString2. lia.
Qed.

Lemma length_stateLabel (n j : nat) :
  (1 <= n)%nat -> (j < 2 ^ n)%nat -> String.length (stateLabel n j) = n.
Proof.
  intros Hn Hj. unfold stateLabel, padStart0.
  rewrite string_length_app, length_zeros.
  pose proof (length_toString2 n j Hn Hj). lia.
Qed.

Lemma bitstring_by_value (a : string) :
  forall b,
    isBitstring a = true -> isBitstring b = true ->
    String.length a = String.length b ->
    binaryValue a = binaryValue b -> a = b.
Proof.
  induction a as [| c a' IH]; intros [| d b'] Ha Hb Hlen Hval;
    try discriminate; [reflexivity |].
  cbn [isBitstring] in Ha, Hb.
  apply andb_prop in Ha. destruct Ha as [Hc Ha'].
  apply andb_prop in Hb. destruct Hb as [Hd Hb'].
  cbn [String.length] in Hlen. injection Hlen as Hlen.
  cbn [binaryValue] in Hval. rewrite Hlen in Hval.
  pose proof (binaryValue_bound a') as Hba.
  pose proof (binaryValue_bound b') as Hbb.
  rewrite Hlen in Hba.
  destruct (Ascii.eqb_spec c "1") as [-> | Hc1];
    destruct (Ascii.eqb_spec d "1") as [-> | Hd1].
  - f_equal. apply IH; try assumption; lia.
  - lia.
  - lia.
  - destruct (Ascii.eqb_spec c "0") as [-> | Hc0];
      [| destruct (Ascii.eqb_spec c "1"); [contradiction | discriminate]].
    destruct (Ascii.eqb_spec d "0") as [-> | Hd0];
      [| destruct (Ascii.eqb_spec d "1"); [contradiction | discriminate]].
    f_equal. apply IH; try assumption; lia.
Qed.

Lemma stateLabel_binaryValue (b : string) :
  isBitstring b = true -> (1 <= String.length b)%nat ->
  stateLabel (String.length b) (binaryValue b) = b.
Proof.
  intros Hbits Hlen. apply bitstring_by_value.
  - apply isBitstring_stateLabel.
  - assumption.
  - apply length_stateLabel; [assumption | apply binaryValue_bound].
  - apply binaryValue_stateLabel.
Qed.

(** ** Claims about the whole run *)

(** C1 (as the code has it). [simulateCircuit] validates nothing and has
    no failure of its own: for every qubit count, gate sequence, shot
    count and stream of draws, zero counts included, it returns a
    register of [numQubits] states and a result list, and with no shots
    that list is empty. *)
Theorem simulateCircuit_never_fails (numQubits : nat) (gates : list Gate)
  (shots : nat) (random : nat -> R) :
  exists sim,
    simulateCircuit numQubits gates shots random = ret sim
    /\ length (qubitStates sim) = numQubits
    /\ (shots = 0%nat -> measurementResults sim = []).
Proof.
  destruct (simulateCircuit_value numQubits gates shots random)
    as [states [_ [[Hlen _] Heq]]].
  eexists. split; [exact Heq |]. cbn [qubitStates measurementResults].
  split; [assumption |]. intros ->. reflexivity.
Qed.

(** C1 (as stated) fails: with one qubit and a shot count of 0, which is
    below 1, the run raises nothing; it returns the initial register and
    an empty result list. *)
Lemma zero_shots_not_rejected :
  simulateCircuit 1 [] 0 (fun _ => 0)
  = ret {| qubitStates := [ket0]; measurementResults := [] |}
  /\ forall e : JsError, simulateCircuit 1 [] 0 (fun _ => 0) <> inl e.
Proof.
  destruct (simulateCircuit_value 1 [] 0 (fun _ => 0))
    as [states [Hrun [_ Heq]]].
  cbn in Hrun. inversion Hrun; subst states.
  assert (Hval : simulateCircuit 1 [] 0 (fun _ => 0)
                 = ret {| qubitStates := [ket0]; measurementResults := [] |}).
  { rewrite Heq. reflexivity. }
  split; [exact Hval |]. intros e. rewrite Hval. discriminate.
Qed.

(** C3. For every qubit count and shot count of at least 1, every gate
    sequence and every stream of draws in [0,1), the run succeeds, every
    shot is counted, and the [probability] fields of the results sum
    to 1. *)
Theorem probabilities_sum_to_one (numQubits : nat) (gates : list Gate)
  (shots : nat) (random : nat -> R) :
  (1 <= numQubits)%nat -> (1 <= shots)%nat ->
  (forall i, 0 <= random i < 1) ->
  exists sim,
    simulateCircuit numQubits gates shots random = ret sim
    /\ sumProbability (measurementResults sim) = 1
    /\ sumCount (measurementResults sim) = shots.
Proof.
  intros _ Hshots Hdraws.
  destruct (simulateCircuit_value numQubits gates shots random)
    as [states [_ [Hunit Heq]]].
  eexists. split; [exact Heq |]. cbn [measurementResults].
  set (normalized := normalize _).
  assert (Htotal : totalCount
                     (sampleShots numQubits normalized random shots 0 [])
                   = shots).
  { rewrite sampleShots_total; [reflexivity |].
    intros i. apply every_draw_hits; [assumption | apply Hdraws]. }
  destruct (results_sums shots
              (sampleShots numQubits normalized random shots 0 []))
    as [Hprob Hcount].
  rewrite Hprob, Hcount, Htotal. split; [| reflexivity].
  apply Rinv_r. apply not_0_INR. lia.
Qed.

Lemma probabilities_sum_to_one_witness :
  ((1 <= 2)%nat /\ (1 <= 3)%nat /\ (forall i : nat, 0 <= 1 / 2 < 1)) /\
  exists sim,
    simulateCircuit 2 [mkGate "g" GateType.H 0 None] 3 (fun _ => 1 / 2)
    = ret sim
    /\ sumProbability (measurementResults sim) = 1
    /\ sumCount (measurementResults sim) = 3%nat.
Proof.
  split.
  - split; [lia |]. split; [lia |]. intros i. lra.
  - apply (probabilities_sum_to_one 2 [mkGate "g" GateType.H 0 None] 3
             (fun _ => 1 / 2)).
    + lia.
    + lia.
    + intros i. lra.
Defined.

(** C6. For every qubit count [n >= 1] and shot count of at least 1, the
    run of the empty circuit returns exactly one result, the string of
    [n] zeros, with count equal to the shot count and probability 1,
    whatever the draws in [0,1) are. *)
Theorem empty_circuit_all_zeros (numQubits : nat) (shots : nat)
  (random : nat -> R) :
  (1 <= numQubits)%nat -> (1 <= shots)%nat ->
  (forall i, 0 <= random i < 1) ->
  simulateCircuit numQubits [] shots random
  = ret {| qubitStates := initStates numQubits;
           measurementResults :=
             [ {| state := zeros numQubits;
                  probability := 1;
                  count := shots |} ] |}.
Proof.
  intros Hn Hshots Hdraws.
  destruct (simulateCircuit_value numQubits [] shots random)
    as [states [Hrun [_ Heq]]].
  cbn [applyGates] in Hrun. inversion Hrun; subst states. clear Hrun.
  rewrite Heq. clear Heq.
  set (normalized := normalize _).
  assert (Hzero : forall i, sampleLoop (random i) normalized 0 0 = Some 0%nat).
  { intros i. apply empty_circuit_draw, Hdraws. }
  destruct shots as [| steps]; [lia |].
  cbn [sampleShots]. unfold shot at 1. rewrite Hzero. cbn [increment].
  rewrite (sampleShots_single numQubits normalized random 0 Hzero).
  rewrite stateLabel_zero by assumption.
  assert (Hentries : objectEntries [(zeros numQubits, (1 + steps)%nat)]
                     = [(zeros numQubits, (1 + steps)%nat)]).
  { unfold objectEntries. cbn [filter].
    destruct (isIndexKey (zeros numQubits, (1 + steps)%nat)); reflexivity. }
  rewrite Hentries. cbn [map sortByCount fold_right insertByCount].
  unfold toResult. cbn [fst snd Nat.add].
  do 3 f_equal. f_equal.
  apply Rinv_r. apply not_0_INR. lia.
Qed.

Lemma empty_circuit_all_zeros_witness :
  ((1 <= 3)%nat /\ (1 <= 100)%nat /\ (forall i : nat, 0 <= 1 / 4 < 1)) /\
  simulateCircuit 3 [] 100 (fun _ => 1 / 4)
  = ret {| qubitStates := initStates 3;
           measurementResults :=
             [ {| state := zeros 3; probability := 1; count := 100 |} ] |}.
Proof.
  split.
  - split; [lia |]. split; [lia |]. intros i. lra.
  - apply (empty_circuit_all_zeros 3 100 (fun _ => 1 / 4)).
    + lia.
    + lia.
    + intros i. lra.
Defined.

(** ** Claim about the probability table *)

(** C5. For every register and every bitstring [b] with one character
    per qubit, the table entry at the index [b] denotes (the one entry
    the sampler labels [b]) is the product over the qubits [q] of
    [|alpha_q|^2] when character [q] of [b] is ['0'] and [|beta_q|^2]
    when it is ['1']: qubit 0 is the first character of the label and
    the most significant bit of the index. *)
Theorem joint_probability_by_position (states : list QubitState)
  (b : string) :
  isBitstring b = true ->
  String.length b = length states ->
  let numQubits := length states in
  let j := binaryValue b in
  exists probabilities,
    computeProbabilities numQubits states = ret probabilities
    /\ (j < numStatesOf numQubits)%nat
    /\ nth_error probabilities j = Some (jointProbability states b)
    /\ ((1 <= numQubits)%nat -> stateLabel numQubits j = b)
    /\ (forall j', stateLabel numQubits j' = b -> j' = j).
Proof.
  intros Hbits Hlen numQubits j.
  assert (Hj : (j < numStatesOf numQubits)%nat).
  { unfold j, numQubits, numStatesOf. rewrite <- Hlen.
    apply binaryValue_bound. }
  eexists. split; [apply computeProbabilities_value |].
  split; [exact Hj |]. split.
  - fold numQubits. rewrite nth_error_map_seq by exact Hj.
    unfold j. now rewrite jointWeight_binaryValue.
  - split.
    + intros Hn. unfold numQubits, j. rewrite <- Hlen.
      apply stateLabel_binaryValue; [assumption |].
      rewrite Hlen. exact Hn.
    + intros j' Hj'. unfold j. rewrite <- Hj'.
      now rewrite binaryValue_stateLabel.
Qed.

Lemma joint_probability_by_position_witness :
  (isBitstring "10" = true
   /\ String.length "10" = length [caseX ket0; ket0]) /\
  exists probabilities,
    computeProbabilities 2 [caseX ket0; ket0] = ret probabilities
    /\ (2 < numStatesOf 2)%nat
    /\ nth_error probabilities 2
       = Some (jointProbability [caseX ket0; ket0] "10")
    /\ ((1 <= 2)%nat -> stateLabel 2 2 = "10"%string)
    /\ (forall j', stateLabel 2 j' = "10"%string -> j' = 2%nat).
Proof.
  split.
  - split; reflexivity.
  - apply (joint_probability_by_position [caseX ket0; ket0] "10");
      reflexivity.
Defined.

(** ** Worked examples *)

Example stateLabel_5_of_3 : stateLabel 3 5 = "101"%string.
Proof. reflexivity. Qed.

Example bits_of_5 :
  map (bitAt 3 5) [0; 1; 2]%nat = [1; 0; 1]%Z.
Proof. reflexivity. Qed.

(** Keys that read as array indices come first, in numeric order. *)
Example objectEntries_order :
  objectEntries [("01", 3); ("11", 1); ("00", 5); ("10", 2)]%string%nat
  = [("10", 2); ("11", 1); ("01", 3); ("00", 5)]%string%nat.
Proof. reflexivity. Qed.

Example sortByCount_stable :
  map state
    (sortByCount
       [mkResult "a" 0 1; mkResult "b" 0 3; mkResult "c" 0 1;
        mkResult "d" 0 3])
  = ["b"; "d"; "a"; "c"]%string.
Proof. reflexivity. Qed.

(** One qubit, one Hadamard, two shots with draws 1/4 and 3/4: one
    count for each outcome. *)
Example hadamard_two_shots :
  exists sim,
    simulateCircuit 1 [gateOn0 GateType.H] 2
      (fun i => if (i =? 0)%nat then 1 / 4 else 3 / 4) = ret sim
    /\ qubitStates sim = [caseH ket0]
    /\ map (fun r => (state r, count r)) (measurementResults sim)
       = [("0"%string, 1%nat); ("1"%string, 1%nat)].
Proof.
  set (random := fun i : nat => if (i =? 0)%nat then 1 / 4 else 3 / 4).
  destruct (simulateCircuit_value 1 [gateOn0 GateType.H] 2 random)
    as [states [Hrun [_ Heq]]].
  cbn in Hrun. inversion Hrun; subst states. clear Hrun.
  eexists. split; [exact Heq |]. split; [reflexivity |].
  cbn [measurementResults].
  assert (Hw0 : jointWeight [caseH ket0] 0 = 1 / 2).
  { cbn. unfold weight, ampProb. cbn.
    pose proof SQRT1_2_sqr as Hh.
    transitivity (SQRT1_2 * SQRT1_2 * 1); [ring | rewrite Hh; field]. }
  assert (Hw1 : jointWeight [caseH ket0] 1 = 1 / 2).
  { cbn. unfold weight, ampProb. cbn.
    pose proof SQRT1_2_sqr as Hh.
    transitivity (SQRT1_2 * SQRT1_2 * 1); [ring | rewrite Hh; field]. }
  change (seq 0 (numStatesOf 1)) with [0; 1]%nat.
  cbn [map]. rewrite Hw0, Hw1.
  unfold normalize, totalOf. cbn [fold_left map].
  replace (0 + 1 / 2 + 1 / 2) with 1 by field.
  cbn [sampleShots]. unfold shot, random. cbn [Nat.eqb sampleLoop].
  destruct (Rle_dec (1 / 4) (0 + 1 / 2 / 1)) as [_ | Hmiss]; [| lra].
  destruct (Rle_dec (3 / 4) (0 + 1 / 2 / 1)) as [Hhit | _]; [lra |].
  destruct (Rle_dec (3 / 4) (0 + 1 / 2 / 1 + 1 / 2 / 1)) as [_ | Hmiss];
    [| lra].
  reflexivity.
Qed.

(** ** The gate list *)

Lemma removeGate_absent (gateId : string) (gates : list Gate) :
  (forall g, In g gates -> id g <> gateId) ->
  removeGate gateId gates = gates.
Proof.
  intros Hfresh. unfold removeGate.
  induction gates as [| g rest IH]; cbn [filter].
  - reflexivity.
  - destruct (String.eqb_spec (id g) gateId) as [Heq | Hne].
    + exfalso. apply (Hfresh g); [now left | assumption].
    + cbn [negb]. f_equal. apply IH. intros g' Hg'. apply Hfresh. now right.
Qed.

Lemma removeGate_app (gateId : string) (l1 l2 : list Gate) :
  removeGate gateId (l1 ++ l2)
  = removeGate gateId l1 ++ removeGate gateId l2.
Proof. unfold removeGate. apply filter_app. Qed.

(** X1. Removing the gate that was just added, by its id, gives back
    the gate list as it was, provided no earlier gate carries that id;
    this holds whatever gate kind, qubit and step were clicked. *)
Theorem remove_undoes_add (selectedGate : GateType.t) (newId : string)
  (qubit step : nat) (gates : list Gate) :
  (forall g, In g gates -> id g <> newId) ->
  removeGate newId (addGate selectedGate newId qubit step gates) = gates.
Proof.
  intros Hfresh. unfold addGate. rewrite removeGate_app.
  rewrite (removeGate_absent newId gates Hfresh).
  unfold removeGate. cbn [filter newGate id].
  rewrite String.eqb_refl. cbn [negb]. apply app_nil_r.
Qed.

Lemma remove_undoes_add_witness :
  (forall g, In g [mkGate "a" GateType.H 0 None] -> id g <> "b"%string) /\
  removeGate "b"
    (addGate GateType.CNOT "b" 1 5 [mkGate "a" GateType.H 0 None])
  = [mkGate "a" GateType.H 0 None].
Proof.
  assert (Hfresh : forall g, In g [mkGate "a" GateType.H 0 None]
                             -> id g <> "b"%string).
  { intros g [<- | []]. simpl. discriminate. }
  split.
  - exact Hfresh.
  - apply (remove_undoes_add GateType.CNOT "b" 1 5
             [mkGate "a" GateType.H 0 None] Hfresh).
Defined.

(** X2. When the ids of the gate list are pairwise distinct, removing
    the id of a gate of the list deletes that one gate and nothing
    else: the gates before it and the gates after it stay, in order. *)
Theorem remove_deletes_one (l1 l2 : list Gate) (g : Gate) :
  NoDup (map id (l1 ++ g :: l2)) ->
  removeGate (id g) (l1 ++ g :: l2) = l1 ++ l2.
Proof.
  intros Hnodup. rewrite map_app in Hnodup. cbn [map] in Hnodup.
  pose proof (NoDup_remove_2 _ _ _ Hnodup) as Hnotin.
  rewrite removeGate_app.
  change (g :: l2) with ([g] ++ l2). rewrite removeGate_app.
  rewrite (removeGate_absent (id g) l1).
  2:{ intros g' Hg' Heq. apply Hnotin. apply in_or_app. left.
      rewrite <- Heq. now apply in_map. }
  rewrite (removeGate_absent (id g) l2).
  2:{ intros g' Hg' Heq. apply Hnotin. apply in_or_app. right.
      rewrite <- Heq. now apply in_map. }
  unfold removeGate. cbn [filter]. rewrite String.eqb_refl. reflexivity.
Qed.

Lemma remove_deletes_one_witness :
  NoDup (map id ([mkGate "a" GateType.H 0 None]
                   ++ mkGate "b" GateType.X 1 None
                   :: [mkGate "c" GateType.Z 0 None])) /\
  removeGate (id (mkGate "b" GateType.X 1 None))
    ([mkGate "a" GateType.H 0 None]
       ++ mkGate "b" GateType.X 1 None :: [mkGate "c" GateType.Z 0 None])
  = [mkGate "a" GateType.H 0 None] ++ [mkGate "c" GateType.Z 0 None].
Proof.
  assert (Hnodup : NoDup (map id ([mkGate "a" GateType.H 0 None]
                                    ++ mkGate "b" GateType.X 1 None
                                    :: [mkGate "c" GateType.Z 0 None]))).
  { simpl. repeat constructor; simpl; intuition discriminate. }
  split.
  - exact Hnodup.
  - apply (remove_deletes_one [mkGate "a" GateType.H 0 None]
             [mkGate "c" GateType.Z 0 None]
             (mkGate "b" GateType.X 1 None) Hnodup).
Defined.

(** ** The circuit diagram *)

Lemma nth_error_set_elem_eq {A : Type} (l : list A) (i : nat) (v : A) :
  (i < length l)%nat -> nth_error (set_elem l i v) i = Some v.
Proof.
  revert i. induction l as [| a rest IH]; intros [| i'] Hi; cbn in *;
    try lia.
  - reflexivity.
  - apply IH. lia.
Qed.

Lemma nth_error_set_elem_ne {A : Type} (l : list A) (i j : nat) (v : A) :
  i <> j -> nth_error (set_elem l i v) j = nth_error l j.
Proof.
  revert i j. induction l as [| a rest IH]; intros [| i'] [| j'] Hij; cbn;
    try reflexivity; try congruence.
  apply IH. congruence.
Qed.

Lemma emptyGrid_shape (numQubits : nat) :
  gridShape numQubits (emptyGrid numQubits).
Proof.
  unfold gridShape, emptyGrid. split.
  - now rewrite length_map, repeat_length.
  - apply Forall_forall. intros row Hrow. apply in_map_iff in Hrow.
    destruct Hrow as [_ [<- _]]. now rewrite length_map, repeat_length.
Qed.

Lemma emptyGrid_cell (numQubits q s : nat) :
  (q < numQubits)%nat -> cellAt (emptyGrid numQubits) q s = ret None.
Proof.
  intros Hq. unfold cellAt, elem, emptyGrid.
  rewrite nth_error_map.
  destruct (nth_error (repeat tt numQubits) q) as [u |] eqn:Hnth.
  - cbn [option_map bind ret]. f_equal.
    rewrite nth_error_map.
    destruct (nth_error (repeat tt maxSteps) s); reflexivity.
  - apply nth_error_None in Hnth. rewrite repeat_length in Hnth. lia.
Qed.

Lemma cellAt_in_shape (numQubits : nat) (grid : Grid) (q s : nat) :
  gridShape numQubits grid -> (q < numQubits)%nat ->
  exists cell, cellAt grid q s = ret cell.
Proof.
  intros [Hlen _] Hq. unfold cellAt.
  destruct (elem_in_range grid q) as [row [Hrow _]]; [lia |].
  rewrite Hrow. cbn [bind]. eexists. reflexivity.
Qed.

Lemma placeGate_step (numQubits : nat) (grid : Grid) (gate : Gate)
  (idx : nat) :
  gridShape numQubits grid ->
  exists grid',
    placeGate numQubits grid gate idx = ret grid'
    /\ gridShape numQubits grid'
    /\ forall q s cell,
         (q < numQubits)%nat ->
         cellAt grid q s = ret cell ->
         cellAt grid' q s
         = ret (if ((qubit gate =? q) && (idx mod maxSteps =? s))%nat
                then Some gate else cell).
Proof.
  intros [Hlen Hrows]. unfold placeGate.
  destruct (Nat.ltb_spec (qubit gate) numQubits) as [Hin | Hout].
  - destruct (elem_in_range grid (qubit gate)) as [row [Hrow Hmem]];
      [lia |].
    rewrite Hrow. cbn [bind].
    assert (Hrowlen : length row = maxSteps).
    { rewrite Forall_forall in Hrows. now apply Hrows. }
    eexists. split; [reflexivity |]. split.
    + split.
      * now rewrite length_set_elem.
      * apply Forall_set_elem; [assumption |].
        now rewrite length_set_elem.
    + intros q s cell Hq Hcell. unfold cellAt, elem in *.
      destruct (Nat.eqb_spec (qubit gate) q) as [Heq | Hne].
      * subst q. rewrite nth_error_set_elem_eq by lia. cbn [bind ret].
        unfold elem in Hrow.
        destruct (nth_error grid (qubit gate)) as [row0 |]; [| discriminate].
        inversion Hrow; subst row0. cbn [bind ret] in Hcell.
        inversion Hcell as [Hc]. cbn [andb].
        destruct (Nat.eqb_spec (idx mod maxSteps) s) as [Hs | Hs].
        -- subst s. rewrite nth_error_set_elem_eq; [reflexivity |].
           rewrite Hrowlen. apply Nat.mod_upper_bound. discriminate.
        -- now rewrite nth_error_set_elem_ne by assumption.
      * rewrite nth_error_set_elem_ne by assumption. cbn [andb].
        exact Hcell.
  - exists grid. split; [reflexivity |]. split; [split; assumption |].
    intros q s cell Hq Hcell.
    destruct (Nat.eqb_spec (qubit gate) q) as [Heq | Hne]; [lia |].
    exact Hcell.
Qed.

Lemma placeGates_cells (numQubits : nat) (gates : list Gate) :
  forall grid idx,
    gridShape numQubits grid ->
    exists grid',
      placeGates numQubits grid gates idx = ret grid'
      /\ gridShape numQubits grid'
      /\ forall q s cell,
           (q < numQubits)%nat ->
           cellAt grid q s = ret cell ->
           cellAt grid' q s = ret (latestFrom gates idx q s cell).
Proof.
  induction gates as [| gate rest IH]; intros grid idx Hshape;
    cbn [placeGates latestFrom].
  - exists grid. repeat split; try apply Hshape. intros q s cell _ Hc. exact Hc.
  - destruct (placeGate_step numQubits grid gate idx Hshape)
      as [grid1 [Hstep [Hshape1 Hcells1]]].
    rewrite Hstep. cbn [bind].
    destruct (IH grid1 (S idx) Hshape1) as [grid2 [Hrun [Hshape2 Hcells2]]].
    exists grid2. split; [assumption |]. split; [assumption |].
    intros q s cell Hq Hcell. apply Hcells2; [assumption |].
    now apply Hcells1.
Qed.

Lemma diagram_cells (numQubits : nat) (gates : list Gate) :
  exists grid,
    gatesByQubitAndStep numQubits gates = ret grid
    /\ gridShape numQubits grid
    /\ forall q s,
         (q < numQubits)%nat ->
         cellAt grid q s = ret (latestFrom gates 0 q s None).
Proof.
  unfold gatesByQubitAndStep.
  destruct (placeGates_cells numQubits gates (emptyGrid numQubits) 0
              (emptyGrid_shape numQubits)) as [grid [Hrun [Hshape Hcells]]].
  exists grid. split; [assumption |]. split; [assumption |].
  intros q s Hq. apply Hcells; [assumption |]. now apply emptyGrid_cell.
Qed.

Lemma targetsCell_head (idx q s : nat) (gate : Gate) :
  ((qubit gate =? q) && (idx mod maxSteps =? s))%nat = true
  <-> targetsCell idx q s gate 0.
Proof.
  unfold targetsCell. rewrite Nat.add_0_r, andb_true_iff, !Nat.eqb_eq.
  reflexivity.
Qed.

Lemma targetsCell_shift (idx q s : nat) (gate : Gate) (k : nat) :
  targetsCell (S idx) q s gate k <-> targetsCell idx q s gate (S k).
Proof.
  unfold targetsCell. now replace (S idx + k)%nat with (idx + S k)%nat by lia.
Qed.

Lemma latestFrom_spec (gates : list Gate) :
  forall idx q s held g,
    latestFrom gates idx q s held = Some g
    <-> (exists k,
            nth_error gates k = Some g
            /\ targetsCell idx q s g k
            /\ forall k' g',
                 (k < k')%nat -> nth_error gates k' = Some g' ->
                 ~ targetsCell idx q s g' k')
        \/ (held = Some g
            /\ forall k' g',
                 nth_error gates k' = Some g' -> ~ targetsCell idx q s g' k').
Proof.
  induction gates as [| gate rest IH]; intros idx q s held g;
    cbn [latestFrom].
  - split.
    + intros Hheld. right. split; [assumption |].
      intros k' g' Hnth. destruct k'; discriminate.
    + intros [[k [Hnth _]] | [Hheld _]]; [destruct k; discriminate |].
      assumption.
  - rewrite IH. clear IH.
    destruct ((qubit gate =? q) && (idx mod maxSteps =? s))%nat eqn:Hhead.
    + apply targetsCell_head in Hhead. split.
      * intros [[k [Hnth [Htarget Hlater]]] | [Hheld Hnone]].
        -- left. exists (S k). split; [assumption |].
           split; [now apply targetsCell_shift |].
           intros k' g' Hlt Hnth'. destruct k' as [| k'']; [lia |].
           intros Ht. apply (Hlater k'' g'); [lia | assumption |].
           now apply targetsCell_shift.
        -- left. inversion Hheld; subst g. exists 0%nat.
           split; [reflexivity |]. split; [assumption |].
           intros k' g' Hlt Hnth'. destruct k' as [| k'']; [lia |].
           intros Ht. apply (Hnone k'' g'); [assumption |].
           now apply targetsCell_shift.
      * intros [[k [Hnth [Htarget Hlater]]] | [_ Hnone]].
        -- destruct k as [| k0].
           ++ right. cbn in Hnth. inversion Hnth; subst g.
              split; [reflexivity |].
              intros k' g' Hnth' Ht.
              apply (Hlater (S k') g'); [lia | assumption |].
              now apply targetsCell_shift.
           ++ left. exists k0. split; [assumption |].
              split; [now apply targetsCell_shift |].
              intros k' g' Hlt Hnth' Ht.
              apply (Hlater (S k') g'); [lia | assumption |].
              now apply targetsCell_shift.
        -- exfalso. apply (Hnone 0%nat gate); [reflexivity | assumption].
    + assert (Hnot : ~ targetsCell idx q s gate 0).
      { intros Ht. apply targetsCell_head in Ht. congruence. }
      split.
      * intros [[k [Hnth [Htarget Hlater]]] | [Hheld Hnone]].
        -- left. exists (S k). split; [assumption |].
           split; [now apply targetsCell_shift |].
           intros k' g' Hlt Hnth'. destruct k' as [| k'']; [lia |].
           intros Ht. apply (Hlater k'' g'); [lia | assumption |].
           now apply targetsCell_shift.
        -- right. split; [assumption |].
           intros k' g' Hnth' Ht. destruct k' as [| k''].
           ++ cbn in Hnth'. inversion Hnth'; subst g'. contradiction.
           ++ apply (Hnone k'' g'); [assumption |].
              now apply targetsCell_shift.
      * intros [[k [Hnth [Htarget Hlater]]] | [Hheld Hnone]].
        -- destruct k as [| k0].
           ++ cbn in Hnth. inversion Hnth; subst g. contradiction.
           ++ left. exists k0. split; [assumption |].
              split; [now apply targetsCell_shift |].
              intros k' g' Hlt Hnth' Ht.
              apply (Hlater (S k') g'); [lia | assumption |].
              now apply targetsCell_shift.
        -- right. split; [assumption |].
           intros k' g' Hnth' Ht.
           apply (Hnone (S k') g'); [assumption |].
           now apply targetsCell_shift.
Qed.

(** The cell of a diagram holds a gate exactly when that gate is the
    last one of the list for that row and column. *)
Lemma cell_holds_iff (gates : list Gate) (q s : nat) (g : Gate) :
  latestFrom gates 0 q s None = Some g
  <-> exists k,
        nth_error gates k = Some g
        /\ qubit g = q /\ (k mod maxSteps)%nat = s
        /\ forall k' g',
             (k < k')%nat -> nth_error gates k' = Some g' ->
             qubit g' = q -> (k' mod maxSteps)%nat <> s.
Proof.
  rewrite latestFrom_spec. unfold targetsCell. cbn [Nat.add]. split.
  - intros [[k [Hnth [[Hq Hs] Hlater]]] | [Hheld _]]; [| discriminate].
    exists k. repeat split; try assumption.
    intros k' g' Hlt Hnth' Hq' Hs'. apply (Hlater k' g' Hlt Hnth'). now split.
  - intros [k [Hnth [Hq [Hs Hlater]]]]. left. exists k.
    repeat split; try assumption.
    intros k' g' Hlt Hnth' [Hq' Hs']. now apply (Hlater k' g' Hlt Hnth').
Qed.

(** X3. Building the diagram never throws, also when gates name qubits
    beyond the qubit count: it yields one row per qubit with [maxSteps]
    cells each, and every cell the page reads (row below the qubit
    count, any step) is there to be read. *)
Theorem diagram_is_well_formed (numQubits : nat) (gates : list Gate) :
  exists grid,
    gatesByQubitAndStep numQubits gates = ret grid
    /\ length grid = numQubits
    /\ (forall row, In row grid -> length row = maxSteps)
    /\ forall q s, (q < numQubits)%nat ->
                   exists cell, cellAt grid q s = ret cell.
Proof.
  destruct (diagram_cells numQubits gates) as [grid [Hrun [Hshape Hcells]]].
  exists grid. split; [assumption |].
  destruct Hshape as [Hlen Hrows]. split; [assumption |]. split.
  - now apply Forall_forall.
  - intros q s Hq. eexists. now apply Hcells.
Qed.

(** X4. A cell of the diagram shows gate [g] exactly when [g] stands in
    the gate list at some position [k] with [g.qubit] the row and
    [k mod 8] the column, and no later gate of the list has the same
    row and column: the last gate placed on a cell wins, and a gate on
    a qubit at or beyond the qubit count is in no cell. *)
Theorem diagram_cell_shows_latest (numQubits : nat) (gates : list Gate)
  (q s : nat) (g : Gate) :
  (q < numQubits)%nat ->
  exists grid,
    gatesByQubitAndStep numQubits gates = ret grid
    /\ (cellAt grid q s = ret (Some g)
        <-> exists k,
              nth_error gates k = Some g
              /\ qubit g = q /\ (k mod maxSteps)%nat = s
              /\ forall k' g',
                   (k < k')%nat -> nth_error gates k' = Some g' ->
                   qubit g' = q -> (k' mod maxSteps)%nat <> s).
Proof.
  intros Hq.
  destruct (diagram_cells numQubits gates) as [grid [Hrun [_ Hcells]]].
  exists grid. split; [assumption |].
  rewrite (Hcells q s Hq), <- cell_holds_iff. split.
  - intros Heq. now inversion Heq.
  - intros ->. reflexivity.
Qed.

Lemma diagram_cell_shows_latest_witness :
  (0 < 2)%nat /\
  exists grid,
    gatesByQubitAndStep 2
      [mkGate "a" GateType.H 0 None; mkGate "b" GateType.X 1 None] = ret grid
    /\ (cellAt grid 0 0 = ret (Some (mkGate "a" GateType.H 0 None))
        <-> exists k,
              nth_error
                [mkGate "a" GateType.H 0 None; mkGate "b" GateType.X 1 None] k
              = Some (mkGate "a" GateType.H 0 None)
              /\ qubit (mkGate "a" GateType.H 0 None) = 0%nat
              /\ (k mod maxSteps)%nat = 0%nat
              /\ forall k' g',
                   (k < k')%nat ->
                   nth_error
                     [mkGate "a" GateType.H 0 None;
                      mkGate "b" GateType.X 1 None] k' = Some g' ->
                   qubit g' = 0%nat -> (k' mod maxSteps)%nat <> 0%nat).
Proof.
  split.
  - lia.
  - apply (diagram_cell_shows_latest 2
             [mkGate "a" GateType.H 0 None; mkGate "b" GateType.X 1 None]
             0 0 (mkGate "a" GateType.H 0 None)).
    lia.
Defined.

(** X5. With at most [maxSteps] gates in the list, every gate on a
    qubit below the qubit count is shown, in its qubit's row at the
    column of its position in the list. *)
Theorem short_circuit_fully_shown (numQubits : nat) (gates : list Gate)
  (k : nat) (g : Gate) :
  (length gates <= maxSteps)%nat ->
  nth_error gates k = Some g ->
  (qubit g < numQubits)%nat ->
  exists grid,
    gatesByQubitAndStep numQubits gates = ret grid
    /\ cellAt grid (qubit g) k = ret (Some g).
Proof.
  intros Hshort Hnth Hq.
  destruct (diagram_cells numQubits gates) as [grid [Hrun [_ Hcells]]].
  exists grid. split; [assumption |].
  rewrite (Hcells (qubit g) k Hq). f_equal.
  apply cell_holds_iff. exists k.
  assert (Hk : (k < length gates)%nat).
  { apply nth_error_Some. congruence. }
  split; [assumption |]. split; [reflexivity |]. split.
  - apply Nat.mod_small. lia.
  - intros k' g' Hlt Hnth' _.
    assert (Hk' : (k' < length gates)%nat).
    { apply nth_error_Some. congruence. }
    rewrite Nat.mod_small by lia. lia.
Qed.

Lemma short_circuit_fully_shown_witness :
  ((length [mkGate "a" GateType.H 0 None; mkGate "b" GateType.X 1 None]
    <= maxSteps)%nat
   /\ nth_error [mkGate "a" GateType.H 0 None; mkGate "b" GateType.X 1 None] 1
      = Some (mkGate "b" GateType.X 1 None)
   /\ (qubit (mkGate "b" GateType.X 1 None) < 2)%nat) /\
  exists grid,
    gatesByQubitAndStep 2
      [mkGate "a" GateType.H 0 None; mkGate "b" GateType.X 1 None] = ret grid
    /\ cellAt grid (qubit (mkGate "b" GateType.X 1 None)) 1
       = ret (Some (mkGate "b" GateType.X 1 None)).
Proof.
  split.
  - split; [unfold maxSteps; simpl; lia |]. split; [reflexivity |].
    simpl. lia.
  - apply (short_circuit_fully_shown 2
             [mkGate "a" GateType.H 0 None; mkGate "b" GateType.X 1 None]
             1 (mkGate "b" GateType.X 1 None)).
    + unfold maxSteps. simpl. lia.
    + reflexivity.
    + simpl. lia.
Defined.

(** X6. A gate added on a qubit below the qubit count shows up in that
    qubit's row at column (number of gates before it) mod 8, whatever
    step was clicked. *)
Theorem added_gate_column (numQubits : nat) (selectedGate : GateType.t)
  (newId : string) (qubit step : nat) (gates : list Gate) :
  (qubit < numQubits)%nat ->
  exists grid,
    gatesByQubitAndStep numQubits
      (addGate selectedGate newId qubit step gates) = ret grid
    /\ cellAt grid qubit (length gates mod maxSteps)
       = ret (Some (newGate selectedGate newId qubit)).
Proof.
  intros Hq.
  destruct (diagram_cells numQubits
              (addGate selectedGate newId qubit step gates))
    as [grid [Hrun [_ Hcells]]].
  exists grid. split; [assumption |].
  rewrite (Hcells qubit _ Hq). f_equal.
  apply cell_holds_iff. exists (length gates). unfold addGate.
  split; [now rewrite nth_error_app2, Nat.sub_diag by lia |].
  split; [reflexivity |]. split; [reflexivity |].
  intros k' g' Hlt Hnth' _.
  assert (Hk' : (k' < length (gates ++ [newGate selectedGate newId qubit]))%nat).
  { apply nth_error_Some. congruence. }
  rewrite length_app in Hk'. cbn [length] in Hk'. lia.
Qed.

Lemma added_gate_column_witness :
  (1 < 3)%nat /\
  exists grid,
    gatesByQubitAndStep 3
      (addGate GateType.X "b" 1 6 [mkGate "a" GateType.H 0 None]) = ret grid
    /\ cellAt grid 1 (length [mkGate "a" GateType.H 0 None] mod maxSteps)
       = ret (Some (newGate GateType.X "b" 1)).
Proof.
  split.
  - lia.
  - apply (added_gate_column 3 GateType.X "b" 1 6
             [mkGate "a" GateType.H 0 None]).
    lia.
Defined.

(** X7. When ids are pairwise distinct, a gate is hidden as soon as a
    later gate of the list has the same qubit and a position congruent
    to its own modulo 8: no cell of the diagram shows it, while it stays
    in the gate list that the simulation runs. *)
Theorem overwritten_gate_is_hidden (numQubits : nat) (gates : list Gate)
  (k k' : nat) (g g' : Gate) :
  NoDup (map id gates) ->
  nth_error gates k = Some g ->
  nth_error gates k' = Some g' ->
  (k < k')%nat ->
  qubit g' = qubit g ->
  (k' mod maxSteps)%nat = (k mod maxSteps)%nat ->
  exists grid,
    gatesByQubitAndStep numQubits gates = ret grid
    /\ In g gates
    /\ forall q s, (q < numQubits)%nat -> cellAt grid q s <> ret (Some g).
Proof.
  intros Hnodup Hnth Hnth' Hlt Hq' Hs'.
  destruct (diagram_cells numQubits gates) as [grid [Hrun [_ Hcells]]].
  exists grid. split; [assumption |]. split; [eapply nth_error_In, Hnth |].
  intros q s Hq Hcell. rewrite (Hcells q s Hq) in Hcell.
  inversion Hcell as [Hlatest]. apply cell_holds_iff in Hlatest.
  destruct Hlatest as [k0 [Hnth0 [Hq0 [Hs0 Hlater]]]].
  assert (Hk0 : k0 = k).
  { assert (Hlen0 : (k0 < length (map id gates))%nat).
    { rewrite length_map. apply nth_error_Some. congruence. }
    apply (proj1 (NoDup_nth_error (map id gates)) Hnodup k0 k Hlen0).
    now rewrite !nth_error_map, Hnth0, Hnth. }
  subst k0. apply (Hlater k' g' Hlt Hnth'); congruence.
Qed.

Lemma overwritten_gate_is_hidden_witness :
  let gates :=
    map (fun i => mkGate (stateLabel 4 i) GateType.X 0 None) (seq 0 9) in
  (NoDup (map id gates)
   /\ nth_error gates 0 = Some (mkGate "0000" GateType.X 0 None)
   /\ nth_error gates 8 = Some (mkGate "1000" GateType.X 0 None)
   /\ (0 < 8)%nat
   /\ qubit (mkGate "1000" GateType.X 0 None)
      = qubit (mkGate "0000" GateType.X 0 None)
   /\ (8 mod maxSteps)%nat = (0 mod maxSteps)%nat) /\
  exists grid,
    gatesByQubitAndStep 1 gates = ret grid
    /\ In (mkGate "0000" GateType.X 0 None) gates
    /\ forall q s, (q < 1)%nat ->
                   cellAt grid q s
                   <> ret (Some (mkGate "0000" GateType.X 0 None)).
Proof.
  intros gates.
  assert (Hnodup : NoDup (map id gates)).
  { unfold gates. simpl. repeat constructor; simpl; intuition discriminate. }
  split.
  - split; [exact Hnodup |]. repeat split; lia.
  - apply (overwritten_gate_is_hidden 1 gates 0 8
             (mkGate "0000" GateType.X 0 None)
             (mkGate "1000" GateType.X 0 None) Hnodup);
      try reflexivity; lia.
Defined.

(** ** More about the register *)

Lemma applyGate_stepRegister (numQubits : nat) (states : list QubitState)
  (gate : Gate) :
  length states = numQubits ->
  applyGate numQubits states gate
  = ret (stepRegister numQubits states gate).
Proof.
  intros Hlen. unfold applyGate, stepRegister, actsOn.
  destruct (Nat.leb_spec numQubits (qubit gate)) as [Hout | Hin];
    cbn [negb andb]; [reflexivity |].
  destruct (switchCase (type gate)) as [body |]; [| reflexivity].
  destruct (elem_in_range states (qubit gate)) as [s [Hs _]]; [lia |].
  rewrite Hs. cbn [bind ret]. unfold elem in Hs.
  destruct (nth_error states (qubit gate)); [| discriminate].
  now inversion Hs.
Qed.

Lemma length_stepRegister (numQubits : nat) (states : list QubitState)
  (gate : Gate) :
  length (stepRegister numQubits states gate) = length states.
Proof.
  unfold stepRegister.
  destruct (if actsOn numQubits gate then switchCase (type gate) else None);
    [| reflexivity].
  destruct (nth_error states (qubit gate)); [| reflexivity].
  apply length_set_elem.
Qed.

Lemma set_elem_swap {A : Type} (l : list A) (i j : nat) (a b : A) :
  i <> j ->
  set_elem (set_elem l i a) j b = set_elem (set_elem l j b) i a.
Proof.
  revert i j. induction l as [| x rest IH]; intros [| i'] [| j'] Hij; cbn;
    try reflexivity; try congruence.
  f_equal. apply IH. congruence.
Qed.

Lemma stepRegister_swap (numQubits : nat) (states : list QubitState)
  (g1 g2 : Gate) :
  qubit g1 <> qubit g2 ->
  stepRegister numQubits (stepRegister numQubits states g1) g2
  = stepRegister numQubits (stepRegister numQubits states g2) g1.
Proof.
  intros Hne. unfold stepRegister.
  destruct (if actsOn numQubits g1 then switchCase (type g1) else None)
    as [b1 |];
    destruct (if actsOn numQubits g2 then switchCase (type g2) else None)
      as [b2 |].
  - destruct (nth_error states (qubit g1)) as [s1 |] eqn:H1;
      destruct (nth_error states (qubit g2)) as [s2 |] eqn:H2.
    + rewrite nth_error_set_elem_ne by assumption. rewrite H2.
      rewrite nth_error_set_elem_ne by congruence. rewrite H1.
      now apply set_elem_swap.
    + rewrite ?nth_error_set_elem_ne by congruence.
      rewrite ?H1, ?H2. reflexivity.
    + rewrite ?nth_error_set_elem_ne by congruence.
      rewrite ?H1, ?H2. reflexivity.
    + rewrite ?H1, ?H2. reflexivity.
  - destruct (nth_error states (qubit g1)) as [s1 |] eqn:H1.
    + destruct (nth_error (set_elem states (qubit g1) (b1 s1)) (qubit g2));
        destruct (nth_error states (qubit g2)); now rewrite ?H1.
    + destruct (nth_error states (qubit g2)); now rewrite ?H1.
  - destruct (nth_error states (qubit g2)) as [s2 |] eqn:H2.
    + destruct (nth_error states (qubit g1));
        destruct (nth_error (set_elem states (qubit g2) (b2 s2)) (qubit g1));
        now rewrite ?H2.
    + destruct (nth_error states (qubit g1)); now rewrite ?H2.
  - destruct (nth_error states (qubit g1));
      destruct (nth_error states (qubit g2)); reflexivity.
Qed.

(** X8. A gate touches its own qubit only: whenever the callback
    returns, the register has the length it had and every other qubit
    holds the state it held. *)
Theorem gate_leaves_other_qubits (numQubits : nat)
  (states states' : list QubitState) (gate : Gate) :
  applyGate numQubits states gate = ret states' ->
  length states' = length states
  /\ forall q, q <> qubit gate -> nth_error states' q = nth_error states q.
Proof.
  unfold applyGate. intros Hrun.
  destruct (numQubits <=? qubit gate)%nat.
  - inversion Hrun; subst states'. split; reflexivity.
  - destruct (switchCase (type gate)) as [body |].
    + unfold elem in Hrun.
      destruct (nth_error states (qubit gate)) as [s |]; [| discriminate].
      cbn [bind ret] in Hrun. inversion Hrun; subst states'. split.
      * apply length_set_elem.
      * intros q Hq. apply nth_error_set_elem_ne. congruence.
    + inversion Hrun; subst states'. split; reflexivity.
Qed.

Lemma gate_leaves_other_qubits_witness :
  applyGate 2 [ket0; ket0] (mkGate "g" GateType.X 1 None)
  = ret [ket0; caseX ket0] /\
  (length [ket0; caseX ket0] = length [ket0; ket0]
   /\ forall q, q <> qubit (mkGate "g" GateType.X 1 None) ->
                nth_error [ket0; caseX ket0] q = nth_error [ket0; ket0] q).
Proof.
  split.
  - reflexivity.
  - apply (gate_leaves_other_qubits 2 [ket0; ket0] [ket0; caseX ket0]
             (mkGate "g" GateType.X 1 None)).
    reflexivity.
Defined.

(** X9. Two gates on different qubits can be applied in either order:
    on a register with one state per qubit both orders succeed and give
    the same register. *)
Theorem gates_on_different_qubits_commute (numQubits : nat)
  (states : list QubitState) (g1 g2 : Gate) :
  length states = numQubits ->
  qubit g1 <> qubit g2 ->
  exists final,
    (s1 <- applyGate numQubits states g1 ;; applyGate numQubits s1 g2)
    = ret final
    /\ (s2 <- applyGate numQubits states g2 ;; applyGate numQubits s2 g1)
       = ret final.
Proof.
  intros Hlen Hne.
  exists (stepRegister numQubits (stepRegister numQubits states g1) g2).
  rewrite !(applyGate_stepRegister numQubits states) by assumption.
  cbn [bind ret].
  rewrite !applyGate_stepRegister
    by (now rewrite length_stepRegister).
  split; [reflexivity |]. now rewrite stepRegister_swap.
Qed.

Lemma gates_on_different_qubits_commute_witness :
  (length [ket0; ket0] = 2%nat
   /\ qubit (mkGate "a" GateType.H 0 None)
      <> qubit (mkGate "b" GateType.X 1 None)) /\
  exists final,
    (s1 <- applyGate 2 [ket0; ket0] (mkGate "a" GateType.H 0 None) ;;
     applyGate 2 s1 (mkGate "b" GateType.X 1 None)) = ret final
    /\ (s2 <- applyGate 2 [ket0; ket0] (mkGate "b" GateType.X 1 None) ;;
        applyGate 2 s2 (mkGate "a" GateType.H 0 None)) = ret final.
Proof.
  split.
  - split; [reflexivity | simpl; lia].
  - apply (gates_on_different_qubits_commute 2 [ket0; ket0]
             (mkGate "a" GateType.H 0 None) (mkGate "b" GateType.X 1 None)).
    + reflexivity.
    + simpl. lia.
Defined.

(** X10. Whatever the gate sequence, the register a run hands to the
    page has one state per qubit and every state has norm 1. *)
Theorem run_register_is_normalized (numQubits : nat) (gates : list Gate)
  (shots : nat) (random : nat -> R) :
  exists sim,
    simulateCircuit numQubits gates shots random = ret sim
    /\ length (qubitStates sim) = numQubits
    /\ forall s, In s (qubitStates sim) -> normSq s = 1.
Proof.
  destruct (simulateCircuit_value numQubits gates shots random)
    as [states [_ [[Hlen Hnorm] Heq]]].
  eexists. split; [exact Heq |]. cbn [qubitStates].
  split; [assumption |]. now apply Forall_forall.
Qed.

Lemma applyGates_filter (numQubits : nat) (gates : list Gate) :
  forall states,
    applyGates numQubits states (filter (actsOn numQubits) gates)
    = applyGates numQubits states gates.
Proof.
  induction gates as [| gate rest IH]; intros states; cbn [filter applyGates].
  - reflexivity.
  - destruct (actsOn numQubits gate) eqn:Hact.
    + cbn [applyGates].
      destruct (applyGate numQubits states gate) as [e | states1];
        cbn [bind]; [reflexivity | apply IH].
    + assert (Hskip : applyGate numQubits states gate = ret states).
      { unfold applyGate. unfold actsOn in Hact.
        destruct (numQubits <=? qubit gate)%nat; [reflexivity |].
        cbn [negb andb] in Hact.
        destruct (switchCase (type gate)); [discriminate | reflexivity]. }
      rewrite Hskip. cbn [bind ret]. apply IH.
Qed.

(** X11. Gates that cannot act (qubit at or beyond the qubit count, or
    kind CNOT or M) can be deleted from the circuit without changing
    anything a run returns. *)
Theorem run_ignores_inert_gates (numQubits : nat) (gates : list Gate)
  (shots : nat) (random : nat -> R) :
  simulateCircuit numQubits (filter (actsOn numQubits) gates) shots random
  = simulateCircuit numQubits gates shots random.
Proof.
  unfold simulateCircuit. now rewrite applyGates_filter.
Qed.

(** ** The results of a run *)

Lemma insertByCount_sorted (a : Result) (sorted : list Result) :
  StronglySorted (fun x y => (count y <= count x)%nat) sorted ->
  StronglySorted (fun x y => (count y <= count x)%nat)
    (insertByCount a sorted).
Proof.
  induction 1 as [| b rest Hrest IH Hb]; cbn [insertByCount].
  - repeat constructor.
  - destruct (Nat.leb_spec (count b) (count a)) as [Hle | Hgt].
    + constructor.
      * now constructor.
      * constructor; [assumption |].
        rewrite Forall_forall in *. intros c Hc. specialize (Hb c Hc). lia.
    + constructor; [assumption |].
      rewrite Forall_forall in *. intros c Hc.
      apply (Permutation_in _ (insertByCount_perm a rest)) in Hc.
      destruct Hc as [<- | Hc]; [lia | now apply Hb].
Qed.

Lemma sortByCount_sorted (results : list Result) :
  StronglySorted (fun x y => (count y <= count x)%nat) (sortByCount results).
Proof.
  unfold sortByCount. induction results as [| a rest IH]; cbn [fold_right].
  - constructor.
  - now apply insertByCount_sorted.
Qed.

(** X12. The result list of every run is ordered by count, largest
    first: each result's count is at least the count of every result
    after it. *)
Theorem results_sorted_by_count (numQubits : nat) (gates : list Gate)
  (shots : nat) (random : nat -> R) :
  exists sim,
    simulateCircuit numQubits gates shots random = ret sim
    /\ StronglySorted (fun x y => (count y <= count x)%nat)
         (measurementResults sim).
Proof.
  destruct (simulateCircuit_value numQubits gates shots random)
    as [states [_ [_ Heq]]].
  eexists. split; [exact Heq |]. cbn [measurementResults].
  apply sortByCount_sorted.
Qed.

(** *** Counting *)

Lemma countOf_increment (counts : Counts) (key label : string) :
  countOf (increment counts key) label
  = (countOf counts label + if String.eqb key label then 1 else 0)%nat.
Proof.
  induction counts as [| [k c] rest IH]; cbn [increment countOf].
  - destruct (String.eqb key label); reflexivity.
  - destruct (String.eqb_spec k key) as [-> | Hne]; cbn [countOf].
    + destruct (String.eqb key label); lia.
    + destruct (String.eqb_spec k label) as [-> | Hkl].
      * destruct (String.eqb_spec key label); [congruence | lia].
      * apply IH.
Qed.

Lemma keys_increment (counts : Counts) (key : string) :
  forall k, In k (map fst (increment counts key))
            <-> k = key \/ In k (map fst counts).
Proof.
  induction counts as [| [k0 c] rest IH]; intros k; cbn [increment].
  - cbn. intuition.
  - destruct (String.eqb_spec k0 key) as [-> | Hne]; cbn [map fst In].
    + intuition.
    + rewrite IH. intuition.
Qed.

Lemma NoDup_increment (counts : Counts) (key : string) :
  NoDup (map fst counts) -> NoDup (map fst (increment counts key)).
Proof.
  induction counts as [| [k0 c] rest IH]; intros Hnd; cbn [increment].
  - cbn. constructor; [intros [] | constructor].
  - cbn [map fst] in Hnd. inversion Hnd as [| ? ? Hnotin Hrest]; subst.
    destruct (String.eqb_spec k0 key) as [-> | Hne]; cbn [map fst].
    + now constructor.
    + constructor; [| now apply IH].
      rewrite keys_increment. intros [-> | Hin]; [congruence | contradiction].
Qed.

Lemma positive_increment (counts : Counts) (key : string) :
  Forall (fun kv => (1 <= snd kv)%nat) counts ->
  Forall (fun kv => (1 <= snd kv)%nat) (increment counts key).
Proof.
  induction 1 as [| [k0 c] rest Hc Hrest IH]; cbn [increment].
  - repeat constructor.
  - destruct (String.eqb k0 key); constructor; cbn [snd] in *;
      try assumption; lia.
Qed.

Lemma countOf_member (counts : Counts) (key : string) (c : nat) :
  NoDup (map fst counts) -> In (key, c) counts -> countOf counts key = c.
Proof.
  induction counts as [| [k0 c0] rest IH]; intros Hnd Hin; [destruct Hin |].
  cbn [map fst] in Hnd. inversion Hnd as [| ? ? Hnotin Hrest]; subst.
  cbn [countOf]. destruct Hin as [Heq | Hin].
  - inversion Heq; subst. now rewrite String.eqb_refl.
  - destruct (String.eqb_spec k0 key) as [-> | Hne].
    + exfalso. apply Hnotin. apply in_map_iff. now exists (key, c).
    + now apply IH.
Qed.

Lemma countOf_positive_member (counts : Counts) (label : string) :
  (1 <= countOf counts label)%nat ->
  In (label, countOf counts label) counts.
Proof.
  induction counts as [| [k0 c0] rest IH]; cbn [countOf]; intros Hpos.
  - lia.
  - destruct (String.eqb_spec k0 label) as [-> | Hne].
    + now left.
    + right. now apply IH.
Qed.

Section Histogram.

  Variables (numQubits : nat) (normalized : list R) (random : nat -> R).

Lemma sampleShots_histogram (steps : nat) :
  forall i counts,
    NoDup (map fst counts) ->
    Forall (fun kv => (1 <= snd kv)%nat) counts ->
    let final := sampleShots numQubits normalized random steps i counts in
    NoDup (map fst final)
    /\ Forall (fun kv => (1 <= snd kv)%nat) final
    /\ forall label,
         countOf final label
         = (countOf counts label
            + shotsFor numQubits normalized random label steps i)%nat.
Proof.
  induction steps as [| steps IH]; intros i counts Hnd Hpos;
    cbn [sampleShots shotsFor].
  - repeat split; try assumption. intros label. lia.
  - set (counts1 := shot numQubits normalized (random i) counts).
    assert (H1 : NoDup (map fst counts1)
                 /\ Forall (fun kv => (1 <= snd kv)%nat) counts1
                 /\ forall label,
                      countOf counts1 label
                      = (countOf counts label
                         + match drawLabel numQubits normalized (random i) with
                           | Some l => if String.eqb l label then 1 else 0
                           | None => 0
                           end)%nat).
    { unfold counts1, shot, drawLabel.
      destruct (sampleLoop (random i) normalized 0 0) as [j |].
      - split; [now apply NoDup_increment |].
        split; [now apply positive_increment |].
        intros label. apply countOf_increment.
      - repeat split; try assumption. intros label. lia. }
    destruct H1 as [Hnd1 [Hpos1 Hcount1]].
    destruct (IH (S i) counts1 Hnd1 Hpos1) as [Hnd2 [Hpos2 Hcount2]].
    repeat split; try assumption.
    intros label. rewrite Hcount2, Hcount1. lia.
Qed.

End Histogram.

Lemma results_perm (shots : nat) (counts : Counts) :
  Permutation (sortByCount (map (toResult shots) (objectEntries counts)))
    (map (toResult shots) counts).
Proof.
  rewrite sortByCount_perm. apply Permutation_map, objectEntries_perm.
Qed.

Lemma in_results (shots : nat) (counts : Counts) (r : Result) :
  In r (sortByCount (map (toResult shots) (objectEntries counts)))
  <-> exists kv, In kv counts /\ r = toResult shots kv.
Proof.
  split.
  - intros Hin. apply (Permutation_in _ (results_perm shots counts)) in Hin.
    apply in_map_iff in Hin. destruct Hin as [kv [<- Hkv]]. now exists kv.
  - intros [kv [Hkv ->]].
    apply (Permutation_in _ (Permutation_sym (results_perm shots counts))).
    now apply in_map.
Qed.

(** The run with its register's probability table made explicit. *)
Lemma simulateCircuit_table (numQubits : nat) (gates : list Gate)
  (shots : nat) (random : nat -> R) :
  exists states probabilities,
    unitRegister numQubits states
    /\ applyGates numQubits (initStates numQubits) gates = ret states
    /\ computeProbabilities numQubits states = ret probabilities
    /\ probabilities
       = map (jointWeight states) (seq 0 (numStatesOf numQubits))
    /\ simulateCircuit numQubits gates shots random
       = ret {| qubitStates := states;
                measurementResults :=
                  sortByCount
                    (map (toResult shots)
                       (objectEntries
                          (sampleShots numQubits (normalize probabilities)
                             random shots 0 []))) |}.
Proof.
  destruct (simulateCircuit_value numQubits gates shots random)
    as [states [Hrun [Hunit Heq]]].
  exists states, (map (jointWeight states) (seq 0 (numStatesOf numQubits))).
  split; [assumption |]. split; [assumption |]. split.
  - destruct Hunit as [Hlen _]. subst numQubits.
    apply computeProbabilities_value.
  - split; [reflexivity | assumption].
Qed.

(** X13. The results of a run are the histogram of its shots: the
    states listed are pairwise distinct, each result's count is the
    number of shots whose draw selected its state (at least 1), its
    probability is that count over the shot count, and every state
    selected by some shot is listed. *)
Theorem results_are_the_histogram (numQubits : nat) (gates : list Gate)
  (shots : nat) (random : nat -> R) :
  exists sim probabilities,
    simulateCircuit numQubits gates shots random = ret sim
    /\ computeProbabilities numQubits (qubitStates sim) = ret probabilities
    /\ NoDup (map state (measurementResults sim))
    /\ (forall r,
          In r (measurementResults sim) ->
          count r
          = shotsFor numQubits (normalize probabilities) random (state r)
              shots 0
          /\ (1 <= count r)%nat
          /\ probability r = INR (count r) / INR shots)
    /\ (forall label,
          (1 <= shotsFor numQubits (normalize probabilities) random label
                  shots 0)%nat ->
          exists r, In r (measurementResults sim) /\ state r = label).
Proof.
  destruct (simulateCircuit_table numQubits gates shots random)
    as [states [probabilities [_ [_ [Htable [_ Heq]]]]]].
  eexists. exists probabilities. split; [exact Heq |].
  cbn [qubitStates measurementResults]. split; [assumption |].
  set (normalized := normalize probabilities).
  set (counts := sampleShots numQubits normalized random shots 0 []).
  destruct (sampleShots_histogram numQubits normalized random shots 0 []
              (NoDup_nil _) (Forall_nil _)) as [Hnd [Hpos Hcount]].
  fold counts in Hnd, Hpos, Hcount. cbn [countOf Nat.add] in Hcount.
  split; [| split].
  - apply (Permutation_NoDup
             (Permutation_sym
                (Permutation_map state (results_perm shots counts)))).
    rewrite map_map. cbn [toResult state]. exact Hnd.
  - intros r Hr. apply in_results in Hr. destruct Hr as [[key c] [Hkv ->]].
    cbn [toResult state count probability fst snd].
    rewrite <- Hcount. rewrite (countOf_member counts key c Hnd Hkv).
    split; [reflexivity |]. split; [| reflexivity].
    rewrite Forall_forall in Hpos. apply (Hpos (key, c) Hkv).
  - intros label Hhit. rewrite <- Hcount in Hhit.
    exists (toResult shots (label, countOf counts label)). split.
    + apply in_results. eexists. split; [| reflexivity].
      now apply countOf_positive_member.
    + reflexivity.
Qed.

Lemma sorted_split (l : list Result) (k : nat) :
  StronglySorted (fun x y => (count y <= count x)%nat) l ->
  forall a b, In a (firstn k l) -> In b (skipn k l) ->
              (count b <= count a)%nat.
Proof.
  intros Hsorted. revert k.
  induction Hsorted as [| x rest Hrest IH Hx]; intros k a b Ha Hb.
  - rewrite firstn_nil in Ha. destruct Ha.
  - destruct k as [| k']; [destruct Ha |].
    cbn [firstn skipn] in Ha, Hb. destruct Ha as [<- | Ha].
    + rewrite Forall_forall in Hx. apply Hx.
      rewrite <- (firstn_skipn k' rest). apply in_or_app. now right.
    + now apply (IH k').
Qed.

(** *** Labels *)

Lemma sampleLoop_bound (r : R) (l : list R) :
  forall j0 cumulative j,
    sampleLoop r l j0 cumulative = Some j ->
    (j0 <= j < j0 + length l)%nat.
Proof.
  induction l as [| p rest IH]; intros j0 cumulative j; cbn [sampleLoop].
  - discriminate.
  - destruct (Rle_dec r (cumulative + p)).
    + intros Heq. inversion Heq; subst. cbn [length]. lia.
    + intros Hrec. apply IH in Hrec. cbn [length]. lia.
Qed.

Lemma length_normalize (l : list R) : length (normalize l) = length l.
Proof. unfold normalize. apply length_map. Qed.

Lemma sampleShots_total_le (numQubits : nat) (normalized : list R)
  (random : nat -> R) (steps : nat) :
  forall i counts,
    (totalCount (sampleShots numQubits normalized random steps i counts)
     <= totalCount counts + steps)%nat.
Proof.
  induction steps as [| steps IH]; intros i counts; cbn [sampleShots].
  - lia.
  - etransitivity; [apply IH |]. unfold shot.
    destruct (sampleLoop (random i) normalized 0 0).
    + rewrite totalCount_increment. lia.
    + lia.
Qed.

Section SelectedIndices.

  Variables (numQubits : nat) (normalized : list R) (random : nat -> R).
  Variable P : nat -> Prop.

  Hypothesis selected_have_P :
    forall i j, sampleLoop (random i) normalized 0 0 = Some j -> P j.

Lemma sampleShots_keys (steps : nat) :
  forall i counts,
    Forall (fun kv => exists j, P j /\ fst kv = stateLabel numQubits j)
      counts ->
    Forall (fun kv => exists j, P j /\ fst kv = stateLabel numQubits j)
      (sampleShots numQubits normalized random steps i counts).
Proof.
  induction steps as [| steps IH]; intros i counts Hl; cbn [sampleShots].
  - assumption.
  - apply IH. unfold shot.
    destruct (sampleLoop (random i) normalized 0 0) as [j |] eqn:Hj;
      [| assumption].
    apply selected_have_P in Hj. clear IH.
    induction Hl as [| [k0 c] rest Hc Hrest IHl]; cbn [increment].
    + constructor; [| constructor]. now exists j.
    + destruct (String.eqb k0 (stateLabel numQubits j)); constructor;
        assumption.
Qed.

End SelectedIndices.

Lemma keys_within (numQubits len : nat) (counts : Counts) :
  Forall (fun kv => exists j, (j < len)%nat
                              /\ fst kv = stateLabel numQubits j) counts ->
  incl (map fst counts) (map (stateLabel numQubits) (seq 0 len)).
Proof.
  intros Hl key Hkey. apply in_map_iff in Hkey.
  destruct Hkey as [kv [<- Hkv]]. rewrite Forall_forall in Hl.
  destruct (Hl kv Hkv) as [j [Hj ->]].
  apply in_map. apply in_seq. lia.
Qed.

Lemma length_le_totalCount (counts : Counts) :
  Forall (fun kv => (1 <= snd kv)%nat) counts ->
  (length counts <= totalCount counts)%nat.
Proof.
  induction 1 as [| kv rest Hkv Hrest IH]; cbn [length totalCount fold_right].
  - lia.
  - fold (totalCount rest). lia.
Qed.

Lemma results_at_most_table (numQubits : nat) (normalized : list R)
  (random : nat -> R) (shots : nat) :
  (length
     (sortByCount
        (map (toResult shots)
           (objectEntries
              (sampleShots numQubits normalized random shots 0 []))))
   <= length normalized)%nat.
Proof.
  set (counts := sampleShots numQubits normalized random shots 0 []).
  rewrite (Permutation_length (results_perm shots counts)), length_map.
  assert (Hkeys :
            Forall (fun kv => exists j, (j < length normalized)%nat
                                        /\ fst kv = stateLabel numQubits j)
              counts).
  { apply (sampleShots_keys numQubits normalized random
             (fun j => (j < length normalized)%nat)); [| constructor].
    intros i j Hj. apply sampleLoop_bound in Hj. lia. }
  destruct (sampleShots_histogram numQubits normalized random shots 0 []
              (NoDup_nil _) (Forall_nil _)) as [Hnd _].
  fold counts in Hnd.
  pose proof (NoDup_incl_length Hnd
                (keys_within numQubits (length normalized) counts Hkeys))
    as Hpigeon.
  rewrite !length_map, length_seq in Hpigeon. exact Hpigeon.
Qed.

(** X14. With at least one qubit, every state a run lists is a string
    of exactly [numQubits] characters, each ['0'] or ['1']; the run
    lists at most [2^numQubits] results and at most one per shot. *)
Theorem result_states_are_bitstrings (numQubits : nat) (gates : list Gate)
  (shots : nat) (random : nat -> R) :
  (1 <= numQubits)%nat ->
  exists sim,
    simulateCircuit numQubits gates shots random = ret sim
    /\ (forall r,
          In r (measurementResults sim) ->
          isBitstring (state r) = true
          /\ String.length (state r) = numQubits)
    /\ (length (measurementResults sim) <= 2 ^ numQubits)%nat
    /\ (length (measurementResults sim) <= shots)%nat.
Proof.
  intros Hn.
  destruct (simulateCircuit_table numQubits gates shots random)
    as [states [probabilities [_ [_ [_ [Htable Heq]]]]]].
  eexists. split; [exact Heq |]. cbn [measurementResults].
  set (normalized := normalize probabilities).
  set (counts := sampleShots numQubits normalized random shots 0 []).
  assert (Hsize : length normalized = (2 ^ numQubits)%nat).
  { unfold normalized. rewrite length_normalize, Htable.
    now rewrite length_map, length_seq. }
  assert (Hlabelled :
            Forall (fun kv => exists j, (j < length normalized)%nat
                                        /\ fst kv = stateLabel numQubits j)
              counts).
  { apply (sampleShots_keys numQubits normalized random
             (fun j => (j < length normalized)%nat)); [| constructor].
    intros i j Hj. apply sampleLoop_bound in Hj. lia. }
  destruct (sampleShots_histogram numQubits normalized random shots 0 []
              (NoDup_nil _) (Forall_nil _)) as [Hnd [Hpos _]].
  fold counts in Hnd, Hpos.
  assert (Hlen : length (sortByCount
                           (map (toResult shots) (objectEntries counts)))
                 = length counts).
  { rewrite (Permutation_length (results_perm shots counts)).
    apply length_map. }
  split; [| split].
  - intros r Hr. apply in_results in Hr. destruct Hr as [kv [Hkv ->]].
    cbn [toResult state]. rewrite Forall_forall in Hlabelled.
    destruct (Hlabelled kv Hkv) as [j [Hj ->]]. split.
    + apply isBitstring_stateLabel.
    + apply length_stateLabel; [assumption | lia].
  - rewrite <- Hsize. apply results_at_most_table.
  - rewrite Hlen.
    etransitivity; [apply length_le_totalCount, Hpos |].
    unfold counts.
    etransitivity; [apply sampleShots_total_le |]. cbn. lia.
Qed.

Lemma result_states_are_bitstrings_witness :
  (1 <= 2)%nat /\
  exists sim,
    simulateCircuit 2 [mkGate "g" GateType.H 0 None] 5 (fun _ => 1 / 3)
    = ret sim
    /\ (forall r,
          In r (measurementResults sim) ->
          isBitstring (state r) = true
          /\ String.length (state r) = 2%nat)
    /\ (length (measurementResults sim) <= 2 ^ 2)%nat
    /\ (length (measurementResults sim) <= 5)%nat.
Proof.
  split.
  - lia.
  - apply (result_states_are_bitstrings 2 [mkGate "g" GateType.H 0 None] 5
             (fun _ => 1 / 3)).
    lia.
Defined.

(** *** The probability table of a run *)

Lemma ampProb_nonneg (a : Complex) : 0 <= ampProb a.
Proof. unfold ampProb. nra. Qed.

Lemma jointWeight_nonneg (states : list QubitState) (i : nat) :
  0 <= jointWeight states i.
Proof.
  induction states as [| s rest IH]; cbn [jointWeight].
  - lra.
  - apply Rmult_le_pos; [apply ampProb_nonneg | assumption].
Qed.

Lemma sumR_nonneg (l : list R) : Forall (fun p => 0 <= p) l -> 0 <= sumR l.
Proof.
  unfold sumR. induction 1 as [| p rest Hp Hrest IH]; cbn; lra.
Qed.

Lemma sumR_member_le (l : list R) (p : R) :
  Forall (fun x => 0 <= x) l -> In p l -> p <= sumR l.
Proof.
  unfold sumR. induction 1 as [| x rest Hx Hrest IH]; intros Hin;
    [destruct Hin |].
  cbn [fold_right]. pose proof (sumR_nonneg rest Hrest) as Hsum.
  unfold sumR in Hsum. destruct Hin as [-> | Hin]; [lra |].
  specialize (IH Hin). lra.
Qed.

Lemma normalize_unit_total (l : list R) : totalOf l = 1 -> normalize l = l.
Proof.
  intros Htotal. unfold normalize. rewrite Htotal.
  rewrite <- (map_id l) at 2. apply map_ext. intros p. field.
Qed.

Lemma table_nonneg (states : list QubitState) (len : nat) :
  Forall (fun p => 0 <= p) (map (jointWeight states) (seq 0 len)).
Proof.
  apply Forall_forall. intros p Hp. apply in_map_iff in Hp.
  destruct Hp as [i [<- _]]. apply jointWeight_nonneg.
Qed.

(** X15. In every run the probability table already sums to 1, so the
    normalisation step leaves it as it is, and every entry lies between
    0 and 1. *)
Theorem normalisation_changes_nothing (numQubits : nat) (gates : list Gate)
  (shots : nat) (random : nat -> R) :
  exists sim probabilities,
    simulateCircuit numQubits gates shots random = ret sim
    /\ computeProbabilities numQubits (qubitStates sim) = ret probabilities
    /\ totalOf probabilities = 1
    /\ normalize probabilities = probabilities
    /\ forall p, In p probabilities -> 0 <= p <= 1.
Proof.
  destruct (simulateCircuit_table numQubits gates shots random)
    as [states [probabilities [Hunit [_ [Htable [Hval Heq]]]]]].
  eexists. exists probabilities. split; [exact Heq |].
  cbn [qubitStates]. split; [assumption |].
  assert (Htotal : totalOf probabilities = 1).
  { rewrite Hval. now apply table_total_one. }
  split; [assumption |]. split; [now apply normalize_unit_total |].
  intros p Hp.
  assert (Hnonneg : Forall (fun x => 0 <= x) probabilities).
  { rewrite Hval. apply table_nonneg. }
  split.
  - rewrite Forall_forall in Hnonneg. now apply Hnonneg.
  - rewrite <- Htotal, totalOf_sumR. now apply sumR_member_le.
Qed.

(** ** The inverse-CDF scan *)

Lemma sumR_cons (p : R) (l : list R) : sumR (p :: l) = p + sumR l.
Proof. reflexivity. Qed.

Lemma prefix_cons (p : R) (l : list R) (k : nat) :
  sumR (firstn (S k) (p :: l)) = p + sumR (firstn k l).
Proof. now rewrite firstn_cons, sumR_cons. Qed.

Lemma sampleLoop_iff (r : R) (l : list R) :
  forall j0 cumulative j,
    sampleLoop r l j0 cumulative = Some j
    <-> exists k,
          j = (j0 + k)%nat
          /\ (k < length l)%nat
          /\ r <= cumulative + sumR (firstn (S k) l)
          /\ forall k', (k' < k)%nat ->
                        cumulative + sumR (firstn (S k') l) < r.
Proof.
  induction l as [| p rest IH]; intros j0 cumulative j; cbn [sampleLoop].
  - split; [discriminate |].
    intros [k [_ [Hk _]]]. cbn in Hk. lia.
  - assert (H0 : sumR (firstn 1 (p :: rest)) = p).
    { rewrite prefix_cons. cbn. lra. }
    destruct (Rle_dec r (cumulative + p)) as [Hhit | Hmiss].
    + split.
      * intros Heq. inversion Heq; subst j. exists 0%nat.
        split; [lia |]. split; [cbn; lia |]. split.
        -- rewrite H0. lra.
        -- intros k' Hk'. lia.
      * intros [k [-> [_ [_ Hbefore]]]]. destruct k as [| k1].
        -- f_equal. lia.
        -- exfalso. specialize (Hbefore 0%nat ltac:(lia)).
           rewrite H0 in Hbefore. lra.
    + rewrite IH. clear IH. split.
      * intros [k1 [-> [Hk1 [Hle Hbefore]]]]. exists (S k1).
        split; [lia |]. split; [cbn [length]; lia |]. split.
        -- rewrite prefix_cons. lra.
        -- intros k' Hk'. destruct k' as [| k''].
           ++ rewrite H0. lra.
           ++ specialize (Hbefore k'' ltac:(lia)).
              rewrite prefix_cons. lra.
      * intros [k [-> [Hk [Hle Hbefore]]]]. destruct k as [| k1].
        -- exfalso. rewrite H0 in Hle. lra.
        -- exists k1. split; [lia |]. split; [cbn [length] in Hk; lia |].
           split.
           ++ rewrite prefix_cons in Hle. lra.
           ++ intros k' Hk'. specialize (Hbefore (S k') ltac:(lia)).
              rewrite prefix_cons in Hbefore. lra.
Qed.

Lemma sampleLoop_top_iff (r : R) (l : list R) (j : nat) :
  sampleLoop r l 0 0 = Some j
  <-> (j < length l)%nat
      /\ r <= sumR (firstn (S j) l)
      /\ forall k, (k < j)%nat -> sumR (firstn (S k) l) < r.
Proof.
  rewrite sampleLoop_iff. split.
  - intros [k [-> [Hk [Hle Hbefore]]]]. cbn [Nat.add].
    split; [assumption |]. split; [lra |].
    intros k' Hk'. specialize (Hbefore k' Hk'). lra.
  - intros [Hj [Hle Hbefore]]. exists j. split; [reflexivity |].
    split; [assumption |]. split; [lra |].
    intros k' Hk'. specialize (Hbefore k' Hk'). lra.
Qed.

(** X16. The scan over [j] is inverse-CDF sampling with closed upper
    ends: a draw [r] selects index [j] exactly when the sum of the
    entries up to and including [j] reaches [r] and no shorter prefix
    does; when even the whole list does not reach [r], the shot selects
    nothing and is not counted. *)
Theorem scan_selects_first_prefix_reaching_draw (r : R) (l : list R) :
  (forall j,
      sampleLoop r l 0 0 = Some j
      <-> (j < length l)%nat
          /\ r <= sumR (firstn (S j) l)
          /\ forall k, (k < j)%nat -> sumR (firstn (S k) l) < r)
  /\ (sampleLoop r l 0 0 = None
      <-> forall k, (k < length l)%nat -> sumR (firstn (S k) l) < r).
Proof.
  split; [apply sampleLoop_top_iff |].
  split.
  - intros Hnone k Hk.
    induction k as [k IHk] using (well_founded_induction lt_wf).
    destruct (Rlt_le_dec (sumR (firstn (S k) l)) r) as [Hlt | Hle];
      [assumption |].
    exfalso.
    assert (Hsome : sampleLoop r l 0 0 = Some k).
    { apply sampleLoop_top_iff. split; [assumption |]. split; [assumption |].
      intros k' Hk'. apply IHk; lia. }
    congruence.
  - intros Hall. destruct (sampleLoop r l 0 0) as [j |] eqn:Hj;
      [| reflexivity].
    apply sampleLoop_top_iff in Hj. destruct Hj as [Hlen [Hle _]].
    specialize (Hall j Hlen). lra.
Qed.

Lemma nth_error_firstn_snoc (l : list R) (j : nat) (x : R) :
  nth_error l j = Some x -> firstn (S j) l = firstn j l ++ [x].
Proof.
  revert j. induction l as [| p rest IH]; intros [| j'] Hnth; cbn in *;
    try discriminate.
  - now inversion Hnth.
  - f_equal. now apply IH.
Qed.

Lemma prefix_sum_step (l : list R) (j : nat) (x : R) :
  nth_error l j = Some x ->
  sumR (firstn (S j) l) = sumR (firstn j l) + x.
Proof.
  intros Hnth. rewrite (nth_error_firstn_snoc l j x Hnth), sumR_app.
  cbn. lra.
Qed.

(** A positive draw never selects an entry that is zero. *)
Lemma positive_draw_positive_entry (r : R) (l : list R) (j : nat) (x : R) :
  0 < r -> sampleLoop r l 0 0 = Some j -> nth_error l j = Some x -> 0 < x.
Proof.
  intros Hr Hj Hx. apply sampleLoop_top_iff in Hj.
  destruct Hj as [_ [Hle Hbefore]].
  rewrite (prefix_sum_step l j x Hx) in Hle.
  destruct j as [| j'].
  - cbn in Hle. lra.
  - specialize (Hbefore j' ltac:(lia)). lra.
Qed.

(** ** Draws at the ends of the range *)

Lemma single_label_results (numQubits : nat) (normalized : list R)
  (random : nat -> R) (shots j : nat) :
  (1 <= shots)%nat ->
  (forall i, sampleLoop (random i) normalized 0 0 = Some j) ->
  sortByCount
    (map (toResult shots)
       (objectEntries
          (sampleShots numQubits normalized random shots 0 [])))
  = [ {| state := stateLabel numQubits j;
         probability := 1;
         count := shots |} ].
Proof.
  intros Hshots Hsel. destruct shots as [| steps]; [lia |].
  cbn [sampleShots]. unfold shot at 1. rewrite Hsel. cbn [increment].
  rewrite (sampleShots_single numQubits normalized random j Hsel).
  set (label := stateLabel numQubits j).
  assert (Hentries : objectEntries [(label, (1 + steps)%nat)]
                     = [(label, (1 + steps)%nat)]).
  { unfold objectEntries. cbn [filter].
    destruct (isIndexKey (label, (1 + steps)%nat)); reflexivity. }
  rewrite Hentries. cbn [map sortByCount fold_right insertByCount].
  unfold toResult. cbn [fst snd Nat.add].
  do 2 f_equal. apply Rinv_r. apply not_0_INR. lia.
Qed.

Lemma table_head (states : list QubitState) (numQubits : nat) :
  exists rest,
    map (jointWeight states) (seq 0 (numStatesOf numQubits))
    = jointWeight states 0 :: rest.
Proof.
  pose proof (numStatesOf_pos numQubits) as Hpos.
  destruct (numStatesOf numQubits) as [| m]; [lia |].
  cbn [seq map]. eexists. reflexivity.
Qed.

(** X17. A draw of exactly 0 always selects the first basis state:
    whatever the circuit, a run whose draws are all 0 reports the
    all-zeros string as its only result, with probability 1, also when
    the final register gives that string probability 0. *)
Theorem zero_draws_report_all_zeros (numQubits : nat) (gates : list Gate)
  (shots : nat) (random : nat -> R) :
  (1 <= numQubits)%nat -> (1 <= shots)%nat ->
  (forall i, random i = 0) ->
  exists states,
    simulateCircuit numQubits gates shots random
    = ret {| qubitStates := states;
             measurementResults :=
               [ {| state := zeros numQubits;
                    probability := 1;
                    count := shots |} ] |}.
Proof.
  intros Hn Hshots Hzero.
  destruct (simulateCircuit_table numQubits gates shots random)
    as [states [probabilities [Hunit [_ [_ [Hval Heq]]]]]].
  exists states. rewrite Heq. do 2 f_equal.
  rewrite <- (stateLabel_zero numQubits Hn).
  apply single_label_results; [assumption |].
  intros i. rewrite Hzero.
  rewrite normalize_unit_total
    by (rewrite Hval; now apply table_total_one).
  rewrite Hval. destruct (table_head states numQubits) as [rest ->].
  cbn [sampleLoop].
  destruct (Rle_dec 0 (0 + jointWeight states 0)) as [_ | Hmiss];
    [reflexivity |].
  exfalso. apply Hmiss. pose proof (jointWeight_nonneg states 0). lra.
Qed.

Lemma zero_draws_report_all_zeros_witness :
  ((1 <= 1)%nat /\ (1 <= 4)%nat /\ (forall i : nat, (fun _ : nat => 0) i = 0))
  /\
  exists states,
    simulateCircuit 1 [mkGate "g" GateType.X 0 None] 4 (fun _ => 0)
    = ret {| qubitStates := states;
             measurementResults :=
               [ {| state := zeros 1; probability := 1; count := 4 |} ] |}.
Proof.
  split.
  - split; [lia |]. split; [lia |]. intros i. reflexivity.
  - apply (zero_draws_report_all_zeros 1 [mkGate "g" GateType.X 0 None] 4
             (fun _ => 0)).
    + lia.
    + lia.
    + intros i. reflexivity.
Defined.

(** X18. When every draw is above 0, a run with at least one qubit
    never lists a state to which its final register gives probability
    0: each listed state has a positive product of its qubits'
    [|alpha|^2] / [|beta|^2]. *)
Theorem positive_draws_list_possible_states (numQubits : nat)
  (gates : list Gate) (shots : nat) (random : nat -> R) :
  (1 <= numQubits)%nat ->
  (forall i, 0 < random i) ->
  exists sim,
    simulateCircuit numQubits gates shots random = ret sim
    /\ forall r,
         In r (measurementResults sim) ->
         0 < jointProbability (qubitStates sim) (state r).
Proof.
  intros Hn Hdraws.
  destruct (simulateCircuit_table numQubits gates shots random)
    as [states [probabilities [Hunit [_ [_ [Hval Heq]]]]]].
  eexists. split; [exact Heq |]. cbn [qubitStates measurementResults].
  assert (Hnorm : normalize probabilities = probabilities).
  { apply normalize_unit_total. rewrite Hval. now apply table_total_one. }
  rewrite Hnorm.
  set (P := fun j => (j < numStatesOf numQubits)%nat
                     /\ 0 < jointWeight states j).
  assert (Hsel : forall i j,
             sampleLoop (random i) probabilities 0 0 = Some j -> P j).
  { intros i j Hj. pose proof (sampleLoop_bound _ _ _ _ _ Hj) as Hb.
    rewrite Hval, length_map, length_seq in Hb.
    split; [lia |].
    apply (positive_draw_positive_entry (random i) probabilities j);
      [apply Hdraws | assumption |].
    rewrite Hval. apply nth_error_map_seq. lia. }
  pose proof (sampleShots_keys numQubits probabilities random P Hsel
                shots 0 [] (Forall_nil _)) as Hkeys.
  intros r Hr. apply in_results in Hr. destruct Hr as [kv [Hkv ->]].
  cbn [toResult state]. rewrite Forall_forall in Hkeys.
  destruct (Hkeys kv Hkv) as [j [[Hj Hpos] ->]].
  destruct Hunit as [Hlen _].
  rewrite <- jointWeight_binaryValue.
  - now rewrite binaryValue_stateLabel.
  - apply isBitstring_stateLabel.
  - rewrite Hlen. apply length_stateLabel; [assumption | exact Hj].
Qed.

Lemma positive_draws_list_possible_states_witness :
  ((1 <= 1)%nat /\ (forall i : nat, 0 < (fun _ : nat => 1 / 2) i)) /\
  exists sim,
    simulateCircuit 1 [mkGate "g" GateType.X 0 None] 3 (fun _ => 1 / 2)
    = ret sim
    /\ forall r,
         In r (measurementResults sim) ->
         0 < jointProbability (qubitStates sim) (state r).
Proof.
  split.
  - split; [lia |]. intros i. lra.
  - apply (positive_draws_list_possible_states 1
             [mkGate "g" GateType.X 0 None] 3 (fun _ => 1 / 2)).
    + lia.
    + intros i. lra.
Defined.

(** ** Certain outcomes *)

Lemma Forall_prefix {A : Type} (P : A -> Prop) (l : list A) (k : nat) :
  Forall P l -> Forall P (firstn k l).
Proof.
  intros Hl. revert k. induction Hl as [| x rest Hx Hrest IH]; intros [| k'];
    cbn; try constructor; auto.
Qed.

Lemma Forall_suffix {A : Type} (P : A -> Prop) (l : list A) (k : nat) :
  Forall P l -> Forall P (skipn k l).
Proof.
  intros Hl. revert k. induction Hl as [| x rest Hx Hrest IH]; intros [| k'];
    cbn; try constructor; auto.
Qed.

Lemma prefix_nonneg (l : list R) (k : nat) :
  Forall (fun x => 0 <= x) l -> 0 <= sumR (firstn k l).
Proof.
  intros Hl. apply sumR_nonneg. now apply Forall_prefix.
Qed.

Lemma suffix_nonneg (l : list R) (k : nat) :
  Forall (fun x => 0 <= x) l -> 0 <= sumR (skipn k l).
Proof.
  intros Hl. apply sumR_nonneg. now apply Forall_suffix.
Qed.

Lemma prefix_monotone (l : list R) (a b : nat) :
  Forall (fun x => 0 <= x) l -> (a <= b)%nat ->
  sumR (firstn a l) <= sumR (firstn b l).
Proof.
  intros Hl Hab.
  rewrite <- (firstn_skipn a (firstn b l)), sumR_app.
  rewrite firstn_firstn, Nat.min_l by assumption.
  assert (0 <= sumR (skipn a (firstn b l))).
  { apply sumR_nonneg. apply Forall_suffix. now apply Forall_prefix. }
  lra.
Qed.

(** An entry that carries the whole mass is selected by every draw in
    (0, 1]. *)
Lemma certain_entry_selected (r : R) (l : list R) (j : nat) :
  Forall (fun x => 0 <= x) l -> sumR l = 1 ->
  nth_error l j = Some 1 ->
  0 < r <= 1 ->
  sampleLoop r l 0 0 = Some j.
Proof.
  intros Hl Hsum Hj Hr. apply sampleLoop_top_iff.
  assert (Hlen : (j < length l)%nat) by (apply nth_error_Some; congruence).
  pose proof (prefix_sum_step l j 1 Hj) as Hstep.
  pose proof (prefix_nonneg l j Hl) as Hpre.
  pose proof (suffix_nonneg l (S j) Hl) as Hsuf.
  assert (Hsplit : sumR l = sumR (firstn (S j) l) + sumR (skipn (S j) l)).
  { now rewrite <- sumR_app, firstn_skipn. }
  split; [assumption |]. split; [lra |].
  intros k Hk.
  pose proof (prefix_monotone l (S k) j Hl ltac:(lia)). lra.
Qed.

Lemma certain_outcome_results (numQubits : nat) (shots : nat)
  (random : nat -> R) (states : list QubitState) (b : string) :
  unitRegister numQubits states ->
  (1 <= numQubits)%nat -> (1 <= shots)%nat ->
  (forall i, 0 < random i < 1) ->
  isBitstring b = true -> String.length b = numQubits ->
  jointProbability states b = 1 ->
  sortByCount
    (map (toResult shots)
       (objectEntries
          (sampleShots numQubits
             (normalize
                (map (jointWeight states) (seq 0 (numStatesOf numQubits))))
             random shots 0 [])))
  = [ {| state := b; probability := 1; count := shots |} ].
Proof.
  intros Hunit Hn Hshots Hdraws Hbits Hlen Hone.
  assert (Hlabel : stateLabel numQubits (binaryValue b) = b).
  { rewrite <- Hlen. apply stateLabel_binaryValue; [assumption | lia]. }
  rewrite <- Hlabel.
  apply single_label_results; [assumption |].
  intros i.
  rewrite normalize_unit_total by (now apply table_total_one).
  apply certain_entry_selected.
  - apply table_nonneg.
  - rewrite <- totalOf_sumR. now apply table_total_one.
  - rewrite nth_error_map_seq.
    + destruct Hunit as [Hstates _].
      rewrite jointWeight_binaryValue by congruence. now rewrite Hone.
    + unfold numStatesOf. rewrite <- Hlen. apply binaryValue_bound.
  - specialize (Hdraws i). lra.
Qed.

(** X19. When the final register gives one bitstring probability 1,
    every run with draws strictly between 0 and 1 lists that bitstring
    as its only result, with the full shot count and probability 1. *)
Theorem certain_state_is_the_only_result (numQubits : nat)
  (gates : list Gate) (shots : nat) (random : nat -> R)
  (states : list QubitState) (b : string) :
  (1 <= numQubits)%nat -> (1 <= shots)%nat ->
  (forall i, 0 < random i < 1) ->
  applyGates numQubits (initStates numQubits) gates = ret states ->
  isBitstring b = true -> String.length b = numQubits ->
  jointProbability states b = 1 ->
  simulateCircuit numQubits gates shots random
  = ret {| qubitStates := states;
           measurementResults :=
             [ {| state := b; probability := 1; count := shots |} ] |}.
Proof.
  intros Hn Hshots Hdraws Hrun Hbits Hlen Hone.
  destruct (simulateCircuit_value numQubits gates shots random)
    as [states' [Hrun' [Hunit Heq]]].
  rewrite Hrun in Hrun'. inversion Hrun'; subst states'.
  rewrite Heq. do 2 f_equal.
  now apply certain_outcome_results.
Qed.

Lemma certain_state_is_the_only_result_witness :
  ((1 <= 1)%nat /\ (1 <= 2)%nat
   /\ (forall i : nat, 0 < (fun _ : nat => 1 / 2) i < 1)
   /\ applyGates 1 (initStates 1) [mkGate "g" GateType.X 0 None]
      = ret [caseX ket0]
   /\ isBitstring "1" = true /\ String.length "1" = 1%nat
   /\ jointProbability [caseX ket0] "1" = 1) /\
  simulateCircuit 1 [mkGate "g" GateType.X 0 None] 2 (fun _ => 1 / 2)
  = ret {| qubitStates := [caseX ket0];
           measurementResults :=
             [ {| state := "1"; probability := 1; count := 2 |} ] |}.
Proof.
  assert (Hone : jointProbability [caseX ket0] "1" = 1).
  { simpl. unfold ampProb. simpl. lra. }
  split.
  - split; [lia |]. split; [lia |]. split; [intros i; lra |].
    split; [reflexivity |]. split; [reflexivity |].
    split; [reflexivity | exact Hone].
  - apply (certain_state_is_the_only_result 1
             [mkGate "g" GateType.X 0 None] 2 (fun _ => 1 / 2)
             [caseX ket0] "1").
    + lia.
    + lia.
    + intros i. lra.
    + reflexivity.
    + reflexivity.
    + reflexivity.
    + exact Hone.
Defined.

(** *** Circuits without Hadamard gates *)

Lemma body_keeps_basis (ty : GateType.t) (body : QubitState -> QubitState)
  (s : QubitState) (b : bool) :
  switchCase ty = Some body -> ty <> GateType.H ->
  isBasisState s b ->
  isBasisState (body s) (if flipsBit ty then negb b else b).
Proof.
  unfold isBasisState. intros Hcase HnotH [Ha Hb].
  destruct ty; cbn in Hcase; inversion Hcase; subst body; clear Hcase;
    cbn [flipsBit]; try congruence.
  - open_state s. unfold caseX, set_alpha, set_beta, ampProb in *.
    cbn [alpha beta real imag] in *. destruct b; cbn [negb]; split; lra.
  - open_state s. unfold caseY, set_alpha, set_beta, ampProb in *.
    cbn [alpha beta real imag] in *. destruct b; cbn [negb]; split; lra.
  - open_state s. unfold caseZ, set_beta, ampProb in *.
    cbn [alpha beta real imag] in *. destruct b; split; lra.
  - pose proof (caseT_norm s) as Hnorm. unfold normSq in Hnorm.
    assert (Hsame : ampProb (alpha (caseT s)) = ampProb (alpha s)).
    { open_state s. reflexivity. }
    split; lra.
  - open_state s. unfold caseS, set_beta, ampProb in *.
    cbn [alpha beta real imag] in *. destruct b; split; lra.
Qed.

Lemma Forall2_set_elem {A B : Type} (Rel : A -> B -> Prop) (l : list A)
  (bits : list B) (q : nat) (a : A) :
  Forall2 Rel l bits ->
  (forall b, nth_error bits q = Some b -> Rel a b) ->
  Forall2 Rel (set_elem l q a) bits.
Proof.
  intros Hrel. revert q.
  induction Hrel as [| x y l' bits' Hxy Hrest IH]; intros q Ha; cbn.
  - constructor.
  - destruct q as [| q'].
    + constructor; [apply Ha; reflexivity | assumption].
    + constructor; [assumption | apply IH].
      intros b Hb. apply Ha. exact Hb.
Qed.

Lemma Forall2_toggle (l : list QubitState) (bits : list bool) (q : nat)
  (s s' : QubitState) :
  Forall2 isBasisState l bits ->
  nth_error l q = Some s ->
  (forall b, isBasisState s b -> isBasisState s' (negb b)) ->
  Forall2 isBasisState (set_elem l q s') (toggle bits q).
Proof.
  intros Hrel. revert q.
  induction Hrel as [| x y l' bits' Hxy Hrest IH]; intros q Hs Hflip; cbn.
  - constructor.
  - destruct q as [| q'].
    + cbn in Hs. inversion Hs; subst x.
      constructor; [now apply Hflip | assumption].
    + constructor; [assumption | now apply IH].
Qed.

Lemma Forall2_nth_error {A B : Type} (Rel : A -> B -> Prop) (l : list A)
  (bits : list B) (q : nat) (a : A) (b : B) :
  Forall2 Rel l bits -> nth_error l q = Some a -> nth_error bits q = Some b ->
  Rel a b.
Proof.
  intros Hrel. revert q.
  induction Hrel as [| x y l' bits' Hxy Hrest IH]; intros [| q'] Ha Hb;
    cbn in *; try discriminate.
  - inversion Ha; inversion Hb; subst. assumption.
  - now apply (IH q').
Qed.

Lemma stepRegister_basis (numQubits : nat) (states : list QubitState)
  (bits : list bool) (gate : Gate) :
  type gate <> GateType.H ->
  Forall2 isBasisState states bits ->
  Forall2 isBasisState (stepRegister numQubits states gate)
    (classicalStep numQubits bits gate).
Proof.
  intros HnotH Hrel. unfold stepRegister, classicalStep, actsOn.
  destruct (Nat.leb_spec numQubits (qubit gate)) as [Hout | Hin].
  - cbn [negb andb].
    destruct (Nat.ltb_spec (qubit gate) numQubits); [lia |].
    cbn [andb]. destruct (nth_error states (qubit gate)); assumption.
  - cbn [negb andb].
    destruct (Nat.ltb_spec (qubit gate) numQubits); [| lia]. cbn [andb].
    destruct (switchCase (type gate)) as [body |] eqn:Hcase.
    + destruct (nth_error states (qubit gate)) as [s |] eqn:Hs.
      * destruct (flipsBit (type gate)) eqn:Hflip.
        -- apply (Forall2_toggle states bits (qubit gate) s); try assumption.
           intros b Hb.
           pose proof (body_keeps_basis _ _ s b Hcase HnotH Hb) as Hstep.
           now rewrite Hflip in Hstep.
        -- apply Forall2_set_elem; [assumption |].
           intros b Hb.
           pose proof (Forall2_nth_error _ _ _ _ _ _ Hrel Hs Hb) as Hsb.
           pose proof (body_keeps_basis _ _ s b Hcase HnotH Hsb) as Hstep.
           now rewrite Hflip in Hstep.
      * destruct (flipsBit (type gate)); [| assumption].
        assert (Hlen : length states = length bits)
          by (eapply Forall2_length; eassumption).
        apply nth_error_None in Hs.
        assert (Htoggle : forall (bs : list bool) q,
                   (length bs <= q)%nat -> toggle bs q = bs).
        { induction bs as [| b0 bs IHbs]; intros [| q'] Hq; cbn in *;
            try reflexivity; try lia.
          f_equal. apply IHbs. lia. }
        rewrite Htoggle by lia. assumption.
    + destruct (type gate); cbn in Hcase; try discriminate;
        cbn [flipsBit]; destruct (nth_error states (qubit gate)); assumption.
Qed.

Lemma applyGates_basis (numQubits : nat) (gates : list Gate) :
  (forall g, In g gates -> type g <> GateType.H) ->
  forall states bits,
    length states = numQubits ->
    Forall2 isBasisState states bits ->
    exists states',
      applyGates numQubits states gates = ret states'
      /\ Forall2 isBasisState states'
           (fold_left (classicalStep numQubits) gates bits).
Proof.
  induction gates as [| gate rest IH]; intros HnoH states bits Hlen Hrel;
    cbn [applyGates fold_left].
  - exists states. split; [reflexivity | assumption].
  - rewrite (applyGate_stepRegister numQubits states gate Hlen).
    cbn [bind ret]. apply IH.
    + intros g Hg. apply HnoH. now right.
    + now rewrite length_stepRegister.
    + apply stepRegister_basis; [| assumption]. apply HnoH. now left.
Qed.

Lemma initStates_basis (numQubits : nat) :
  Forall2 isBasisState (initStates numQubits) (repeat false numQubits).
Proof.
  unfold initStates. induction numQubits as [| n IH]; cbn.
  - constructor.
  - constructor; [| exact IH].
    unfold isBasisState, ampProb, ket0. cbn. split; ring.
Qed.

Lemma basis_register_label (states : list QubitState) (bits : list bool) :
  Forall2 isBasisState states bits ->
  jointProbability states (bitsLabel bits) = 1
  /\ isBitstring (bitsLabel bits) = true
  /\ String.length (bitsLabel bits) = length states.
Proof.
  induction 1 as [| s b states' bits' [Ha Hb] Hrest [IH1 [IH2 IH3]]];
    cbn [jointProbability bitsLabel isBitstring String.length length].
  - repeat split.
  - destruct b; cbn [Ascii.eqb Bool.eqb orb andb].
    + rewrite Hb, IH1. repeat split; [ring | assumption | now f_equal].
    + rewrite Ha, IH1. repeat split; [ring | assumption | now f_equal].
Qed.

(** X20. A circuit without Hadamard gates behaves classically: with at
    least one qubit and one shot and draws strictly between 0 and 1,
    the run lists a single result with probability 1, the bitstring
    obtained by starting from all zeros and flipping bit [q] once for
    every X or Y gate on a qubit [q] below the qubit count (Z, S, T,
    CNOT, M and gates on other qubits flip nothing). *)
Theorem hadamard_free_circuit_is_classical (numQubits : nat)
  (gates : list Gate) (shots : nat) (random : nat -> R) :
  (1 <= numQubits)%nat -> (1 <= shots)%nat ->
  (forall i, 0 < random i < 1) ->
  (forall g, In g gates -> type g <> GateType.H) ->
  exists states,
    simulateCircuit numQubits gates shots random
    = ret {| qubitStates := states;
             measurementResults :=
               [ {| state := bitsLabel (classicalBits numQubits gates);
                    probability := 1;
                    count := shots |} ] |}.
Proof.
  intros Hn Hshots Hdraws HnoH.
  destruct (initStates_unit numQubits) as [Hlen0 _].
  destruct (applyGates_basis numQubits gates HnoH (initStates numQubits)
              (repeat false numQubits) Hlen0 (initStates_basis numQubits))
    as [states [Hrun Hrel]].
  fold (classicalBits numQubits gates) in Hrel.
  destruct (basis_register_label _ _ Hrel) as [Hone [Hbits Hlen]].
  destruct (simulateCircuit_value numQubits gates shots random)
    as [states' [Hrun' [Hunit Heq]]].
  rewrite Hrun in Hrun'. inversion Hrun'; subst states'.
  exists states. rewrite Heq. do 2 f_equal.
  apply certain_outcome_results; try assumption.
  destruct Hunit as [Hstates _]. congruence.
Qed.

Lemma hadamard_free_circuit_is_classical_witness :
  let gates := [mkGate "a" GateType.X 1 None; mkGate "b" GateType.Z 1 None;
                mkGate "c" GateType.CNOT 0 None; mkGate "d" GateType.Y 2 None;
                mkGate "e" GateType.X 2 None] in
  ((1 <= 3)%nat /\ (1 <= 10)%nat
   /\ (forall i : nat, 0 < (fun _ : nat => 1 / 2) i < 1)
   /\ (forall g, In g gates -> type g <> GateType.H)) /\
  exists states,
    simulateCircuit 3 gates 10 (fun _ => 1 / 2)
    = ret {| qubitStates := states;
             measurementResults :=
               [ {| state := bitsLabel (classicalBits 3 gates);
                    probability := 1;
                    count := 10 |} ] |}.
Proof.
  intros gates.
  assert (HnoH : forall g, In g gates -> type g <> GateType.H).
  { intros g Hg. simpl in Hg.
    repeat (destruct Hg as [<- | Hg]; [simpl; discriminate |]).
    destruct Hg. }
  split.
  - split; [lia |]. split; [lia |]. split; [intros i; lra | exact HnoH].
  - apply (hadamard_free_circuit_is_classical 3 gates 10 (fun _ => 1 / 2)).
    + lia.
    + lia.
    + intros i. lra.
    + exact HnoH.
Defined.

Example classical_label :
  bitsLabel
    (classicalBits 3
       [mkGate "a" GateType.X 1 None; mkGate "b" GateType.Z 1 None;
        mkGate "c" GateType.CNOT 0 None; mkGate "d" GateType.Y 2 None;
        mkGate "e" GateType.X 2 None]) = "010"%string.
Proof. reflexivity. Qed.

(** ** The bit test under 32-bit evaluation *)



(** ** Labels *)

(** X22. The label of a basis state reads back as its index, so two
    different indices never share a label and no two basis states are
    merged into one result; for [numQubits >= 1] and an index below
    [2^numQubits] the label has exactly [numQubits] characters, all
    ['0'] or ['1']. *)
Theorem label_reads_back_index (numQubits : nat) :
  (forall j, binaryValue (stateLabel numQubits j) = j)
  /\ (forall j1 j2,
        stateLabel numQubits j1 = stateLabel numQubits j2 -> j1 = j2)
  /\ (forall j, isBitstring (stateLabel numQubits j) = true)
  /\ (forall j,
        (1 <= numQubits)%nat -> (j < 2 ^ numQubits)%nat ->
        String.length (stateLabel numQubits j) = numQubits).
Proof.
  split; [apply binaryValue_stateLabel |]. split.
  - intros j1 j2 Heq.
    rewrite <- (binaryValue_stateLabel numQubits j1), Heq.
    apply binaryValue_stateLabel.
  - split; [apply isBitstring_stateLabel |].
    intros j. apply length_stateLabel.
Qed.

(** ** More gate algebra *)

Lemma caseH_caseZ_caseH (s : QubitState) : caseH (caseZ (caseH s)) = caseX s.
Proof.
  open_state s. unfold caseH, caseZ, caseX, set_alpha, set_beta.
  cbn [alpha beta real imag].
  pose proof SQRT1_2_sqr as Hh.
  assert (Hp : forall a b : R,
             SQRT1_2 * (SQRT1_2 * (a + b) + - (SQRT1_2 * (a - b))) = b).
  { intros a b.
    transitivity ((SQRT1_2 * SQRT1_2) * (2 * b)); [ring | rewrite Hh; field]. }
  assert (Hm : forall a b : R,
             SQRT1_2 * (SQRT1_2 * (a + b) - - (SQRT1_2 * (a - b))) = a).
  { intros a b.
    transitivity ((SQRT1_2 * SQRT1_2) * (2 * a)); [ring | rewrite Hh; field]. }
  rewrite !Hp, !Hm. reflexivity.
Qed.

Lemma caseH_caseX_caseH (s : QubitState) : caseH (caseX (caseH s)) = caseZ s.
Proof.
  open_state s. unfold caseH, caseZ, caseX, set_alpha, set_beta.
  cbn [alpha beta real imag].
  pose proof SQRT1_2_sqr as Hh.
  assert (Hp : forall a b : R,
             SQRT1_2 * (SQRT1_2 * (a - b) + SQRT1_2 * (a + b)) = a).
  { intros a b.
    transitivity ((SQRT1_2 * SQRT1_2) * (2 * a)); [ring | rewrite Hh; field]. }
  assert (Hm : forall a b : R,
             SQRT1_2 * (SQRT1_2 * (a - b) - SQRT1_2 * (a + b)) = - b).
  { intros a b.
    transitivity ((SQRT1_2 * SQRT1_2) * (2 * - b));
      [ring | rewrite Hh; field]. }
  rewrite !Hp, !Hm. reflexivity.
Qed.

(** X23. Conjugating by Hadamard exchanges Z and X: for every single
    qubit state, H then Z then H gives what X gives, and H then X then
    H gives what Z gives. *)
Theorem hadamard_conjugation (s : QubitState) :
  (s1 <- applyTo GateType.H s ;;
   s2 <- applyTo GateType.Z s1 ;; applyTo GateType.H s2)
  = applyTo GateType.X s
  /\ (s1 <- applyTo GateType.H s ;;
      s2 <- applyTo GateType.X s1 ;; applyTo GateType.H s2)
     = applyTo GateType.Z s
  /\ applyTo GateType.X s = ret (caseX s)
  /\ applyTo GateType.Z s = ret (caseZ s).
Proof.
  rewrite !(applyTo_body GateType.H caseH s) by reflexivity. cbn [bind ret].
  rewrite (applyTo_body GateType.Z caseZ) by reflexivity.
  rewrite (applyTo_body GateType.X caseX (caseH s)) by reflexivity.
  cbn [bind ret].
  rewrite !(applyTo_body GateType.H caseH) by reflexivity.
  rewrite (applyTo_body GateType.X caseX s) by reflexivity.
  rewrite (applyTo_body GateType.Z caseZ s) by reflexivity.
  rewrite caseH_caseZ_caseH, caseH_caseX_caseH. repeat split.
Qed.





(** X25. The phase gates have finite order: for every single qubit
    state, four S gates in a row, and eight T gates in a row, give back
    the state they started from. *)
Theorem phase_gates_have_finite_order (s : QubitState) :
  (s1 <- applyTo GateType.S s ;; s2 <- applyTo GateType.S s1 ;;
   s3 <- applyTo GateType.S s2 ;; applyTo GateType.S s3) = ret s
  /\ (s1 <- applyTo GateType.T s ;; s2 <- applyTo GateType.T s1 ;;
      s3 <- applyTo GateType.T s2 ;; s4 <- applyTo GateType.T s3 ;;
      s5 <- applyTo GateType.T s4 ;; s6 <- applyTo GateType.T s5 ;;
      s7 <- applyTo GateType.T s6 ;; applyTo GateType.T s7) = ret s.
Proof.
  split.
  - repeat (rewrite (applyTo_body GateType.S caseS) by reflexivity;
            cbn [bind ret]).
    now rewrite !caseS_caseS, caseZ_caseZ.
  - repeat (rewrite (applyTo_body GateType.T caseT) by reflexivity;
            cbn [bind ret]).
    now rewrite !caseT_caseT, !caseS_caseS, caseZ_caseZ.
Qed.

(** ** Cancelling gate pairs in a circuit *)








(** ** The result cards *)

(** X28. The cards under the chart show the most frequent results: no
    result left without a card has a larger count than a result with
    one, and with at most 3 qubits every result has a card. *)
Theorem cards_show_most_frequent (numQubits : nat) (gates : list Gate)
  (shots : nat) (random : nat -> R) :
  exists sim,
    simulateCircuit numQubits gates shots random = ret sim
    /\ (forall a b,
          In a (resultCards (measurementResults sim)) ->
          In b (skipn 8 (measurementResults sim)) ->
          (count b <= count a)%nat)
    /\ ((numQubits <= 3)%nat ->
        resultCards (measurementResults sim) = measurementResults sim).
Proof.
  destruct (simulateCircuit_table numQubits gates shots random)
    as [states [probabilities [_ [_ [_ [Hval Heq]]]]]].
  eexists. split; [exact Heq |]. cbn [measurementResults]. split.
  - intros a b Ha Hb. unfold resultCards in Ha.
    eapply sorted_split; [apply sortByCount_sorted | exact Ha | exact Hb].
  - intros Hn. unfold resultCards. apply firstn_all2.
    etransitivity; [apply results_at_most_table |].
    rewrite length_normalize, Hval, length_map, length_seq.
    unfold numStatesOf.
    change 8%nat with (2 ^ 3)%nat. apply Nat.pow_le_mono_r; lia.
Qed.
